(** * Word language model notebook: the text-to-training-example pipeline

    A shallow embedding of the data preparation cells of
    [word_language_model.ipynb] (the helper functions [parse_text] and
    [clean_text], the windowing loop, and the tokenizer and padding calls),
    with the properties of the pipeline stated and proved over it.

    A Python [str] is modelled as the list of its code points, for code
    points below 256 (the range of [ascii]); the character classes below
    are Python's on that range, where [str.lower] works character by
    character and keeps a letter a letter.  Beyond that range it does
    neither; a statement that rests on this says so with a hypothesis on
    the code points of its texts ([of_code_points], [of_records]). *)

From Stdlib Require Import List Ascii Bool Arith Lia ZArith Permutation Sorted.
From Stdlib Require String.
Import ListNotations String.StringSyntax.

Local Open Scope string_scope.
Local Open Scope list_scope.

(** ** Strings *)

Definition str := list ascii.

Definition lit (s : String.string) : str := String.list_ascii_of_string s.

Definition code (c : ascii) : nat := nat_of_ascii c.

Definition between (lo hi n : nat) : bool := (lo <=? n) && (n <=? hi).

(** [str.isspace] on one character: the separators of [str.split()] and the
    characters removed by [str.strip()]. *)
Definition isspace (c : ascii) : bool :=
  let n := code c in
  between 9 13 n || between 28 32 n || (n =? 133) || (n =? 160).

(** [str.isalpha] on one character (the letters of Latin-1). *)
Definition isalpha_char (c : ascii) : bool :=
  let n := code c in
  between 65 90 n || between 97 122 n || (n =? 170) || (n =? 181)
  || (n =? 186) || between 192 214 n || between 216 246 n
  || between 248 255 n.

(** [str.lower] on one character. *)
Definition lower_char (c : ascii) : ascii :=
  let n := code c in
  if between 65 90 n || between 192 214 n || between 216 222 n
  then ascii_of_nat (n + 32) else c.

(** Membership in [string.punctuation]: the 32 ASCII punctuation
    characters, codes 33-47, 58-64, 91-96 and 123-126. *)
Definition is_punctuation (c : ascii) : bool :=
  let n := code c in
  between 33 47 n || between 58 64 n || between 91 96 n || between 123 126 n.

Fixpoint str_eqb (a b : str) : bool :=
  match a, b with
  | [], [] => true
  | x :: a', y :: b' => Ascii.eqb x y && str_eqb a' b'
  | _, _ => false
  end.

(** [s.startswith(p)] *)
Fixpoint startswith (s p : str) {struct p} : bool :=
  match p, s with
  | [], _ => true
  | x :: p', y :: s' => Ascii.eqb x y && startswith s' p'
  | _ :: _, [] => false
  end.

(** [s.endswith(p)] *)
Definition endswith (s p : str) : bool := startswith (rev s) (rev p).

(** [p in s] *)
Fixpoint contains (p s : str) : bool :=
  startswith s p ||
  match s with
  | [] => false
  | _ :: s' => contains p s'
  end.

(** Number of positions of [s] at which [p] starts. *)
Fixpoint occurrences (p s : str) : nat :=
  (if startswith s p then 1 else 0) +
  match s with
  | [] => 0
  | _ :: s' => occurrences p s'
  end.

(** [s.find(p)]: the index of the first occurrence, [None] for Python's -1. *)
Fixpoint find (p s : str) : option nat :=
  if startswith s p then Some 0
  else match s with
       | [] => None
       | _ :: s' => option_map S (find p s')
       end.

(** [s.split(sep)] for a non-empty [sep]: the loop of the implementation,
    which looks for the next occurrence from the current position, cuts
    there and resumes behind the separator.  [n] bounds the number of
    cuts. *)
Fixpoint split_loop (n : nat) (sep s : str) : list str :=
  match n with
  | 0 => [s]
  | S n' =>
      match find sep s with
      | None => [s]
      | Some i => firstn i s :: split_loop n' sep (skipn (i + length sep) s)
      end
  end.

(** A string of [length s] characters holds at most [length s]
    separators. *)
Definition split (sep s : str) : list str := split_loop (length s) sep s.

Fixpoint lstrip (s : str) : str :=
  match s with
  | [] => []
  | c :: s' => if isspace c then lstrip s' else s
  end.

Definition rstrip (s : str) : str := rev (lstrip (rev s)).

(** [s.strip()] *)
Definition strip (s : str) : str := rstrip (lstrip s).

(** [s.split()]: cut at runs of whitespace, no empty pieces.  [cur] holds
    the characters of the piece being read, last one first. *)
Fixpoint split_ws_from (cur s : str) : list str :=
  match s with
  | [] => match cur with [] => [] | _ => [rev cur] end
  | c :: s' =>
      if isspace c
      then match cur with
           | [] => split_ws_from [] s'
           | _ => rev cur :: split_ws_from [] s'
           end
      else split_ws_from (c :: cur) s'
  end.

Definition split_ws (s : str) : list str := split_ws_from [] s.

(** [sep.join(l)] *)
Fixpoint join (sep : str) (l : list str) : str :=
  match l with
  | [] => []
  | [x] => x
  | x :: l' => x ++ sep ++ join sep l'
  end.

(** [s.replace(old, new)] for a one-character [old]. *)
Definition replace_char (old : ascii) (new : str) (s : str) : str :=
  flat_map (fun c => if Ascii.eqb c old then new else [c]) s.

(** [s.lower()] *)
Definition lower (s : str) : str := map lower_char s.

(** [s.isalpha()]: at least one character, all of them letters. *)
Definition isalpha (s : str) : bool :=
  match s with
  | [] => false
  | _ => forallb isalpha_char s
  end.

(** [s[:-k]] *)
Definition drop_last (k : nat) (s : str) : str := firstn (length s - k) s.

(** ** The helper functions (cell 4) *)

Definition eos : str := lit "<eos>".

Definition newline : ascii := ascii_of_nat 10.
Definition apostrophe : ascii := ascii_of_nat 39.
Definition period : ascii := ascii_of_nat 46.
Definition space : str := lit " ".

(** The loop body of [parse_text]:
    [text.replace("\n", "").replace("\'", "").replace(".", f" {eos} ")]. *)
Definition entry (text : str) : str :=
  replace_char period (space ++ eos ++ space)
    (replace_char apostrophe [] (replace_char newline [] text)).

Definition parse_text (data : list str) : str :=
  fold_left (fun full_text text => full_text ++ entry text) data [].

(** [w.translate(table)] for [table = str.maketrans("", "", string.punctuation)] *)
Definition translate_table (w : str) : str :=
  filter (fun c => negb (is_punctuation c)) w.

Definition clean_text (doc : str) : list str :=
  let tokens := split_ws doc in
  let tokens :=
    map (fun w => if negb (contains eos w) then translate_table w else w) tokens in
  let tokens := filter (fun word => isalpha word || contains eos word) tokens in
  let tokens := map lower tokens in
  tokens.

(** ** Organising the tokens into sequences (cell 8) *)

(** [length = 10 + 1] in the notebook: 10 words as input, 1 as output. *)
Definition window_length : nat := 10 + 1.

(** [l[a:b]] for indices that are not negative. *)
Definition slice {A : Type} (l : list A) (a b : nat) : list A :=
  firstn (b - a) (skipn a l).

(** [range(a, b)] *)
Definition range (a b : nat) : list nat := seq a (b - a).

(** The candidate window of iteration [i], joined into a line. *)
Definition line_at (tokens : list str) (i : nat) : str :=
  join space (slice tokens (i - window_length) i).

(** What the loop body does with a line: [Some] for the line it appends,
    [None] where it reaches [continue] (the unpacking of [line.split(eos)]
    into two names raises unless the split has exactly two parts, and the
    bare [except] catches that). *)
Definition trim_line (line : str) : option str :=
  if contains eos line then
    if endswith line eos then Some (strip (drop_last 4 line))
    else if startswith line eos then Some (strip (skipn 4 line))
    else
      match split eos line with
      | [front; back] =>
          if length back <? length front then Some (strip front)
          else Some (strip back)
      | _ => None
      end
  else Some line.

(** One iteration, on the list [sequences] built so far. *)
Definition loop_body (tokens : list str) (sequences : list str) (i : nat)
  : list str :=
  match trim_line (line_at tokens i) with
  | Some line => sequences ++ [line]
  | None => sequences
  end.

Definition sequences_from (tokens : list str) (acc : list str)
  (indices : list nat) : list str :=
  fold_left (loop_body tokens) indices acc.

Definition sequences (tokens : list str) : list str :=
  sequences_from tokens [] (range window_length (length tokens)).

(** The candidate windows the loop looks at, in order. *)
Definition candidate_windows (tokens : list str) : list (list str) :=
  map (fun i => slice tokens (i - window_length) i)
      (range window_length (length tokens)).

(** What the loop makes of a list of candidate windows. *)
Definition produce_from (acc : list str) (windows : list (list str))
  : list str :=
  fold_left
    (fun acc w => match trim_line (join space w) with
                  | Some line => acc ++ [line]
                  | None => acc
                  end)
    windows acc.

Definition produce (windows : list (list str)) : list str :=
  produce_from [] windows.

(** ** Dictionaries

    A Python [dict] keeps its keys in insertion order; assigning to a key
    that is present replaces the value in place. *)

Section Dict.
Context {K V : Type} (eqb : K -> K -> bool).

Fixpoint dict_get (d : list (K * V)) (k : K) : option V :=
  match d with
  | [] => None
  | (k', v) :: d' => if eqb k' k then Some v else dict_get d' k
  end.

Fixpoint dict_set (d : list (K * V)) (k : K) (v : V) : list (K * V) :=
  match d with
  | [] => [(k, v)]
  | (k', v') :: d' =>
      if eqb k' k then (k', v) :: d' else (k', v') :: dict_set d' k v
  end.

(** [dict(pairs)] *)
Definition dict_of (pairs : list (K * V)) : list (K * V) :=
  fold_left (fun d kv => dict_set d (fst kv) (snd kv)) pairs [].

(** [d.keys()] *)
Definition keys (d : list (K * V)) : list K := map fst d.
End Dict.

(** ** Encoding the sequences (cells 9, 10 and 17)

    [keras.preprocessing.text.Tokenizer()] with its default arguments:
    lower-casing, the default [filters], splitting at single spaces, no
    limit on the number of words and no out-of-vocabulary token. *)

(** The default [filters]: [string.punctuation] without the apostrophe,
    and the tab and newline characters. *)
Definition is_filter (c : ascii) : bool :=
  let n := code c in
  (is_punctuation c && negb (n =? 39)) || (n =? 9) || (n =? 10).

Definition is_empty (s : str) : bool :=
  match s with [] => true | _ => false end.

Definition text_to_word_sequence (text : str) : list str :=
  let text := lower text in
  let text := flat_map (fun c => if is_filter c then space else [c]) text in
  let seq := split space text in
  filter (fun i => negb (is_empty i)) seq.

(** The counting loop of [fit_on_texts] for one word. *)
Definition count_word (word_counts : list (str * nat)) (w : str)
  : list (str * nat) :=
  match dict_get str_eqb word_counts w with
  | Some c => dict_set str_eqb word_counts w (c + 1)
  | None => dict_set str_eqb word_counts w 1
  end.

Definition word_counts (texts : list str) : list (str * nat) :=
  fold_left
    (fun wc text => fold_left count_word (text_to_word_sequence text) wc)
    texts [].

(** [wcounts.sort(key=lambda x: x[1], reverse=True)]: by decreasing count,
    entries of equal count in their order of insertion. *)
Fixpoint insert_by_count (x : str * nat) (l : list (str * nat))
  : list (str * nat) :=
  match l with
  | [] => [x]
  | y :: l' =>
      if snd x <? snd y then y :: insert_by_count x l' else x :: y :: l'
  end.

Definition sort_by_count (l : list (str * nat)) : list (str * nat) :=
  fold_right insert_by_count [] l.

Definition sorted_voc (texts : list str) : list str :=
  map fst (sort_by_count (word_counts texts)).

(** [dict(zip(sorted_voc, range(1, len(sorted_voc) + 1)))] *)
Definition word_index (texts : list str) : list (str * nat) :=
  let voc := sorted_voc texts in
  dict_of str_eqb (combine voc (range 1 (length voc + 1))).

(** One text of [texts_to_sequences]: the ids of its words, a word
    without id left out. *)
Definition text_to_sequence (index : list (str * nat)) (text : str)
  : list nat :=
  flat_map (fun w => match dict_get str_eqb index w with
                     | Some i => [i]
                     | None => []
                     end)
           (text_to_word_sequence text).

Definition texts_to_sequences (index : list (str * nat)) (texts : list str)
  : list (list nat) :=
  map (text_to_sequence index) texts.

(** [max(l)], which raises on an empty list. *)
Definition max_of (l : list nat) : option nat :=
  match l with
  | [] => None
  | x :: l' => Some (fold_left Nat.max l' x)
  end.

(** One row of [pad_sequences(..., maxlen, padding='pre')]: the last
    [maxlen] entries of the row behind as many zeros as it takes to fill
    [maxlen] places (the notebook passes the greatest length, so that
    every row is kept whole). *)
Definition pad_row (maxlen : nat) (s : list nat) : list nat :=
  let trunc := skipn (length s - maxlen) s in
  repeat 0 (maxlen - length trunc) ++ trunc.

Definition pad_sequences (seqs : list (list nat)) (maxlen : nat)
  : list (list nat) :=
  map (pad_row maxlen) seqs.

Definition tokenized_sequences (sequences : list str) : list (list nat) :=
  texts_to_sequences (word_index sequences) sequences.

Definition max_sequence_len (sequences : list str) : option nat :=
  max_of (map (@length nat) (tokenized_sequences sequences)).

(** Cell 9 as a whole; [None] when [max] raises. *)
Definition input_sequences (sequences : list str) : option (list (list nat)) :=
  match max_sequence_len sequences with
  | Some m => Some (pad_sequences (tokenized_sequences sequences) m)
  | None => None
  end.

Definition vocab_size (sequences : list str) : nat :=
  length (word_index sequences) + 1.

(** [dict([[v,k] for k,v in tokenizer.word_index.items()])] *)
Definition index_word_lookup (sequences : list str) : list (nat * str) :=
  dict_of Nat.eqb (map (fun kv => (snd kv, fst kv)) (word_index sequences)).

(** ** Inputs and targets (cell 12) *)

(** [input_sequences[:,:-1]] on an array of width [m]. *)
Definition all_but_last_column (m : nat) (rows : list (list nat))
  : list (list nat) :=
  map (firstn (m - 1)) rows.

(** [input_sequences[:,-1]] on an array of width [m]: an array without
    columns has no last one, and the index raises. *)
Definition last_column (m : nat) (rows : list (list nat))
  : option (list nat) :=
  match m with
  | 0 => None
  | S k => Some (map (fun row => nth k row 0) rows)
  end.

(** One row of [to_categorical]: 1 at place [k], 0 elsewhere (the
    floating-point 1.0 and 0.0 of the library). *)
Definition one_hot (num_classes k : nat) : list nat :=
  map (fun j => if j =? k then 1 else 0) (seq 0 num_classes).

(** [to_categorical(y, num_classes)]: without [num_classes] (None or 0) the
    library takes the greatest class plus one; a class that is not below
    the number of classes is an index out of bounds. *)
Definition to_categorical (y : list nat) (num_classes : nat)
  : option (list (list nat)) :=
  let classes :=
    match num_classes with
    | 0 => option_map S (max_of y)
    | S _ => Some num_classes
    end in
  match classes with
  | None => None
  | Some n =>
      if forallb (fun k => k <? n) y then Some (map (one_hot n) y) else None
  end.

(** Cell 12 as a whole: [X], [y] and [seq_length]; [None] where cell 9 or
    this cell raises. *)
Definition X_y (sequences : list str)
  : option (list (list nat) * list (list nat) * nat) :=
  match max_sequence_len sequences with
  | None => None
  | Some m =>
      let input_sequences :=
        pad_sequences (tokenized_sequences sequences) m in
      let X := all_but_last_column m input_sequences in
      match last_column m input_sequences with
      | None => None
      | Some y =>
          match to_categorical y (vocab_size sequences) with
          | None => None
          | Some y => Some (X, y, m - 1)
          end
      end
  end.

(** ** Generating text (cell 18)

    The trained network is a function from the row it is given to the
    class it predicts ([model.predict_classes] on an array of one row, and
    the only entry of its answer); [sequences] are the training sequences
    that the tokenizer and [index_word_lookup] of the notebook were made
    of. *)

Section GenerateText.
Variable predict_classes : list nat -> nat.
Variable sequences : list str.

(** [pad_sequences(sequences=[ids], maxlen=max_sequence_len-1,
    padding='pre')], its only row.  With [max_sequence_len = 0] the array
    would have -1 columns, which numpy refuses; with [max_sequence_len = 1]
    it has none, and numpy assigns one id to no place (broadcasting) but
    refuses more than one. *)
Definition pad_seed (max_sequence_len : nat) (ids : list nat)
  : option (list nat) :=
  match max_sequence_len with
  | 0 => None
  | 1 => match ids with
         | [] | [_] => Some []
         | _ :: _ :: _ => None
         end
  | S maxlen => Some (pad_row maxlen ids)
  end.

(** [None] where the function raises: in the padding, or with the
    KeyError of [index_word_lookup[predicted[0]]]. *)
Fixpoint generate_text (seed_text : str) (next_words : nat)
  (max_sequence_len : nat) : option str :=
  match next_words with
  | 0 => Some seed_text
  | S n =>
      match pad_seed max_sequence_len
              (text_to_sequence (word_index sequences) seed_text) with
      | None => None
      | Some token_list =>
          let predicted := predict_classes token_list in
          match dict_get Nat.eqb (index_word_lookup sequences) predicted with
          | None => None
          | Some word =>
              generate_text (seed_text ++ space ++ word) n max_sequence_len
          end
      end
  end.
End GenerateText.

(** ** Notions for the statements *)

Definition str_eq_dec : forall a b : str, {a = b} + {a <> b} :=
  list_eq_dec ascii_dec.

(** All words of all texts, in the order in which [fit_on_texts] counts
    them. *)
Definition all_words (texts : list str) : list str :=
  flat_map text_to_word_sequence texts.

(** A plain token is alphabetic and lower-case, as [clean_text] leaves any
    token without marker. *)
Definition plain (t : str) : Prop := isalpha t = true /\ lower t = t.

Definition space_char : ascii := ascii_of_nat 32.

(** A word of the vocabulary made of the sequences. *)
Definition known (sequences : list str) (w : str) : bool :=
  existsb (str_eqb w) (all_words sequences).

(** The text in which [text_to_word_sequence] looks for words: lower-case,
    with a space for every filter character. *)
Definition filtered (text : str) : str :=
  flat_map (fun c => if is_filter c then space else [c]) (lower text).

(** The steps of [clean_text] behind the split. *)
Definition clean_tokens (tokens : list str) : list str :=
  map lower
    (filter (fun word => isalpha word || contains eos word)
       (map (fun w => if negb (contains eos w) then translate_table w else w)
            tokens)).

(** [out] is a piece of [line]: what stands between some front and some
    back of it. *)
Definition piece (out line : str) : Prop :=
  exists l r, line = l ++ out ++ r.

(** The count behind a lookup in [word_counts]. *)
Definition count_or_zero (o : option nat) : nat :=
  match o with Some c => c | None => 0 end.

(** The order of [sort_by_count]. *)
Definition by_count (x y : str * nat) : Prop := snd y <= snd x.

(** The Python strings that [str] holds are the strings of code points
    below 256.  [of_code_points] is the string of a list of code points,
    [None] where a code point lies beyond; [of_records] is the same for a
    list of strings. *)
Definition of_code_points (cps : list N) : option str :=
  if forallb (fun n => (n <? 256)%N) cps
  then Some (map ascii_of_N cps)
  else None.


(** The code points of a string. *)
Definition code_points_of (s : str) : list N := map N_of_ascii s.

(** ** Example inputs *)

(** The two records of the specification's example. *)
Definition example_records : list str :=
  [lit "Great food. Loved it"; lit "Terrible service."].

(** A window of eleven tokens with a marker inside and one at its end,
    and a stream that begins with it. *)
Definition window_marker_inside_and_last : list str :=
  map lit ["a"; "<eos>"; "c"; "d"; "e"; "f"; "g"; "h"; "i"; "j"; "<eos>"].

Definition stream_marker_inside_and_last : list str :=
  window_marker_inside_and_last ++ [lit "k"].

(** A stream of twelve tokens whose only window has a marker first and
    another one inside. *)
Definition stream_marker_first_and_inside : list str :=
  map lit ["<eos>"; "b"; "<eos>"; "d"; "e"; "f"; "g"; "h"; "i"; "j"; "k"; "l"].

(** A stream whose second window has two markers inside. *)
Definition stream_two_markers_inside : list str :=
  map lit ["a"; "b"; "c"; "<eos>"; "e"; "<eos>"; "g"; "h"; "i"; "j"; "k";
           "l"; "m"].

(** Windows with one marker: last, first, inside. *)
Definition window_marker_last : list str :=
  map lit ["a"; "b"; "c"; "d"; "e"; "f"; "g"; "h"; "i"; "j"; "<eos>"].

Definition window_marker_first : list str :=
  map lit ["<eos>"; "b"; "c"; "d"; "e"; "f"; "g"; "h"; "i"; "j"; "k"].

Definition window_marker_inside : list str :=
  map lit ["a"; "b"; "c"; "<eos>"; "e"; "f"; "g"; "h"; "i"; "j"; "k"].

(** A stream whose only window is cut at a marker in its middle. *)
Definition stream_marker_in_the_middle : list str :=
  map lit ["a"; "b"; "c"; "d"; "e"; "<eos>"; "g"; "h"; "i"; "j"; "k"; "l"].

(** A stream whose only window has the word eos next to markers. *)
Definition stream_word_eos : list str :=
  map lit ["<eos>"; "eos"; "<eos>"; "d"; "e"; "f"; "g"; "h"; "i"; "j"; "k";
           "l"].

(** A stream without markers. *)
Definition stream_plain : list str :=
  map lit ["the"; "food"; "was"; "good"; "and"; "the"; "staff"; "was";
           "very"; "kind"; "to"; "us"; "all"].

(** * Properties *)

(** ** Characters and strings *)

Lemma lower_char_idem (c : ascii) : lower_char (lower_char c) = lower_char c.
Proof. destruct c as [[] [] [] [] [] [] [] []]; reflexivity. Qed.

Lemma isalpha_lower_char (c : ascii) :
  isalpha_char (lower_char c) = isalpha_char c.
Proof. destruct c as [[] [] [] [] [] [] [] []]; reflexivity. Qed.

Lemma lower_idem (s : str) : lower (lower s) = lower s.
Proof.
  unfold lower. rewrite map_map.
  apply map_ext. intro c. apply lower_char_idem.
Qed.

Lemma isalpha_lower (s : str) : isalpha (lower s) = isalpha s.
Proof.
  assert (H : forall l,
             forallb isalpha_char (map lower_char l) = forallb isalpha_char l).
  { induction l as [|x l IH]; cbn; [reflexivity|].
    now rewrite isalpha_lower_char, IH. }
  destruct s as [|c s]; [reflexivity|].
  exact (H (c :: s)).
Qed.

Lemma startswith_iff (s p : str) :
  startswith s p = true <-> exists r, s = p ++ r.
Proof.
  revert s. induction p as [|x p IH]; intro s; cbn.
  - split; [intros _; now exists s | reflexivity].
  - destruct s as [|y s].
    + split; [discriminate | intros [r H]; discriminate].
    + rewrite andb_true_iff, Ascii.eqb_eq, IH. split.
      * intros [-> [r ->]]. now exists r.
      * intros [r H]. injection H as -> ->. split; [reflexivity | now exists r].
Qed.

Lemma contains_iff (p s : str) :
  contains p s = true <-> exists l r, s = l ++ p ++ r.
Proof.
  induction s as [|c s IH].
  - cbn. rewrite orb_false_r, startswith_iff. split.
    + intros [r H]. now exists [], r.
    + intros [l [r H]]. destruct l; [now exists r | discriminate].
  - cbn [contains]. rewrite orb_true_iff, startswith_iff, IH. split.
    + intros [[r H] | [l [r H]]].
      * now exists [], r.
      * exists (c :: l), r. now rewrite H.
    + intros [[|c' l] [r H]].
      * left. now exists r.
      * right. injection H as _ H. now exists l, r.
Qed.

Lemma contains_false_iff (p s : str) :
  contains p s = false <-> forall l r, s <> l ++ p ++ r.
Proof.
  rewrite <- not_true_iff_false, contains_iff. split.
  - intros H l r E. apply H. now exists l, r.
  - intros H [l [r E]]. exact (H l r E).
Qed.

(** A piece of a string without [p] is without [p]. *)
Lemma contains_false_piece (p l m r : str) :
  contains p (l ++ m ++ r) = false -> contains p m = false.
Proof.
  rewrite !contains_false_iff. intros H a b E. subst m.
  apply (H (l ++ a) (b ++ r)). now rewrite <- !app_assoc.
Qed.

Lemma contains_eos_lower (s : str) :
  contains eos s = true -> contains eos (lower s) = true.
Proof.
  rewrite !contains_iff. intros [l [r ->]].
  exists (lower l), (lower r).
  unfold lower. now rewrite !map_app.
Qed.

Lemma endswith_iff (s p : str) :
  endswith s p = true <-> exists l, s = l ++ p.
Proof.
  unfold endswith. rewrite startswith_iff. split.
  - intros [r H]. exists (rev r).
    rewrite <- (rev_involutive s), H, rev_app_distr.
    now rewrite rev_involutive.
  - intros [l ->]. exists (rev l). apply rev_app_distr.
Qed.

Lemma contains_cons (p : str) (c : ascii) (s : str) :
  contains p (c :: s) = startswith (c :: s) p || contains p s.
Proof. reflexivity. Qed.

Lemma occurrences_zero_iff (p s : str) :
  occurrences p s = 0 <-> contains p s = false.
Proof.
  induction s as [|c s IH]; cbn [occurrences contains].
  - destruct (startswith [] p); cbn; split; (discriminate || reflexivity).
  - destruct (startswith (c :: s) p); cbn.
    + split; discriminate.
    + exact IH.
Qed.

Lemma find_none_iff (p s : str) :
  find p s = None <-> contains p s = false.
Proof.
  induction s as [|c s IH]; cbn [find contains].
  - destruct (startswith [] p); cbn; split; (discriminate || reflexivity).
  - destruct (startswith (c :: s) p); cbn.
    + split; discriminate.
    + rewrite <- IH. destruct (find p s); cbn; split; (discriminate || reflexivity).
Qed.

Lemma find_bound (p s : str) (i : nat) :
  find p s = Some i -> i + length p <= length s.
Proof.
  revert i. induction s as [|c s IH]; intro i; cbn [find].
  - destruct (startswith [] p) eqn:E; [|discriminate].
    intros [= <-]. apply startswith_iff in E as [r E].
    destruct p; [cbn; lia | discriminate].
  - destruct (startswith (c :: s) p) eqn:E.
    + intros [= <-]. apply startswith_iff in E as [r E].
      rewrite E, length_app. lia.
    + destruct (find p s) as [j|]; [|discriminate].
      intros [= <-]. specialize (IH j eq_refl). cbn. lia.
Qed.

(** *** The separator split *)

Section Split.
Variable sep : str.
Hypothesis sep_not_empty : sep <> [].

Lemma find_empty_string : find sep [] = None.
Proof. destruct sep; [contradiction | reflexivity]. Qed.

(** Any bound that is at least the length of the string gives the same
    split: the loop has stopped by then. *)
Lemma split_loop_enough (n m : nat) (s : str) :
  length s <= n -> length s <= m -> split_loop n sep s = split_loop m sep s.
Proof.
  revert m s. induction n as [|n IH]; intros [|m] s Hn Hm; cbn [split_loop].
  - reflexivity.
  - destruct s; [|cbn in Hn; lia]. now rewrite find_empty_string.
  - destruct s; [|cbn in Hm; lia]. now rewrite find_empty_string.
  - destruct (find sep s) as [i|] eqn:E; [|reflexivity].
    f_equal. apply find_bound in E.
    assert (0 < length sep) by (destruct sep; [contradiction | cbn; lia]).
    apply IH; rewrite length_skipn; lia.
Qed.

Lemma split_loop_split (n : nat) (s : str) :
  length s <= n -> split_loop n sep s = split sep s.
Proof. intro H. apply split_loop_enough; [exact H | lia]. Qed.

Lemma split_without (s : str) : contains sep s = false -> split sep s = [s].
Proof.
  intro H. apply find_none_iff in H. unfold split.
  destruct (length s); cbn [split_loop]; [reflexivity | now rewrite H].
Qed.

Lemma split_not_nil (s : str) : 1 <= length (split sep s).
Proof.
  unfold split. destruct (length s); cbn [split_loop]; [cbn; lia|].
  destruct (find sep s); cbn; lia.
Qed.

(** Where the first occurrence is known, the split cuts there. *)
Lemma split_at_first (front back : str) :
  find sep (front ++ sep ++ back) = Some (length front) ->
  split sep (front ++ sep ++ back) = front :: split sep back.
Proof.
  intro H. unfold split at 1.
  assert (L : length (front ++ sep ++ back)
              = S (length front + (length sep - 1) + length back)).
  { rewrite !length_app.
    assert (0 < length sep) by (destruct sep; [contradiction | cbn; lia]).
    lia. }
  rewrite L. cbn [split_loop]. rewrite H. f_equal.
  - rewrite firstn_app, Nat.sub_diag, firstn_all. cbn. apply app_nil_r.
  - rewrite app_assoc, skipn_app, <- length_app, skipn_all, Nat.sub_diag.
    cbn [skipn app]. apply split_loop_split. lia.
Qed.
End Split.

(** *** The boundary marker inside a line

    The marker begins with the only [<] it has and ends with the only [>]:
    two occurrences cannot overlap, and none can lie across the end of
    another. *)

Lemma eos_not_empty : eos <> [].
Proof. discriminate. Qed.

Lemma startswith_false_iff (s p : str) :
  startswith s p = false <-> forall r, s <> p ++ r.
Proof.
  rewrite <- not_true_iff_false, startswith_iff. split.
  - intros H r E. apply H. now exists r.
  - intros H [r E]. exact (H r E).
Qed.

(** Text without the marker in front of a marker: the line does not start
    with the marker, unless that text is empty. *)
Lemma marker_not_at_start (front back : str) :
  front <> [] -> contains eos front = false ->
  startswith (front ++ eos ++ back) eos = false.
Proof.
  intros Hne Hno. apply startswith_false_iff. intros r E.
  destruct front as [|c1 [|c2 [|c3 [|c4 [|c5 f]]]]];
    [contradiction | discriminate E .. |].
  injection E as -> -> -> -> -> _. discriminate Hno.
Qed.

(** The same at the other end. *)
Lemma marker_not_at_end (front back : str) :
  back <> [] -> contains eos back = false ->
  endswith (front ++ eos ++ back) eos = false.
Proof.
  intros Hne Hno. unfold endswith.
  rewrite !rev_app_distr, <- app_assoc.
  apply startswith_false_iff. intros r E.
  assert (Hb : back = rev (rev back)) by (symmetry; apply rev_involutive).
  destruct (rev back) as [|c1 [|c2 [|c3 [|c4 [|c5 f]]]]];
    [cbn in Hb; contradiction | discriminate E .. |].
  injection E as -> -> -> -> -> _.
  assert (C : contains eos back = true).
  { apply contains_iff. exists (rev f), []. rewrite Hb. cbn.
    now rewrite <- !app_assoc. }
  congruence.
Qed.

Lemma find_eos_first (front back : str) :
  contains eos front = false ->
  find eos (front ++ eos ++ back) = Some (length front).
Proof.
  induction front as [|c f IH]; intro H.
  - reflexivity.
  - assert (E : startswith ((c :: f) ++ eos ++ back) eos = false)
      by (apply marker_not_at_start; [discriminate | exact H]).
    rewrite contains_cons in H. apply orb_false_iff in H as [_ H].
    cbn [app find] in *. rewrite E, (IH H). reflexivity.
Qed.

Lemma split_eos_cut (front back : str) :
  contains eos front = false ->
  split eos (front ++ eos ++ back) = front :: split eos back.
Proof.
  intro H. apply split_at_first; [exact eos_not_empty|].
  now apply find_eos_first.
Qed.

Lemma occurrences_cut (front back : str) :
  contains eos front = false ->
  occurrences eos (front ++ eos ++ back) = 1 + occurrences eos back.
Proof.
  induction front as [|c f IH]; intro H.
  - reflexivity.
  - assert (E : startswith ((c :: f) ++ eos ++ back) eos = false)
      by (apply marker_not_at_start; [discriminate | exact H]).
    rewrite contains_cons in H. apply orb_false_iff in H as [_ H].
    cbn [app occurrences] in *. rewrite E, (IH H). reflexivity.
Qed.

(** The text in front of the first occurrence holds no occurrence. *)
Lemma first_cut (p s : str) :
  p <> [] -> contains p s = true ->
  exists a r, s = a ++ p ++ r /\ contains p a = false.
Proof.
  intro Hp. induction s as [|c s IH]; intro H.
  - destruct p; [contradiction | discriminate H].
  - rewrite contains_cons in H.
    destruct (startswith (c :: s) p) eqn:E.
    + apply startswith_iff in E as [r E]. exists [], r.
      split; [exact E|]. destruct p; [contradiction | reflexivity].
    + cbn in H. destruct (IH H) as [a [r [-> Ha]]].
      exists (c :: a), r. split; [reflexivity|].
      rewrite contains_cons, Ha, orb_false_r.
      apply startswith_false_iff. intros r' E'.
      apply startswith_false_iff with (r := r' ++ p ++ r) in E.
      apply E. change (c :: a ++ p ++ r) with ((c :: a) ++ p ++ r).
      rewrite E'. now rewrite <- app_assoc.
Qed.

(** A line with exactly one marker reads: text without marker, marker,
    text without marker, and in one way only. *)
Lemma one_marker_sides (front back : str) :
  occurrences eos (front ++ eos ++ back) = 1 ->
  contains eos front = false /\ contains eos back = false.
Proof.
  intro H.
  assert (Hf : contains eos front = false).
  { destruct (contains eos front) eqn:C; [|reflexivity].
    destruct (first_cut _ _ eos_not_empty C) as [a [r [-> Ha]]].
    rewrite <- !app_assoc, (occurrences_cut _ _ Ha) in H.
    assert (C' : contains eos (r ++ eos ++ back) = true)
      by (apply contains_iff; now exists r, back).
    apply not_false_iff_true in C'.
    rewrite <- occurrences_zero_iff in C'. lia. }
  split; [exact Hf|].
  rewrite (occurrences_cut _ _ Hf) in H.
  apply occurrences_zero_iff. lia.
Qed.

Lemma one_marker_cut (line : str) :
  occurrences eos line = 1 ->
  exists front back,
    line = front ++ eos ++ back /\
    contains eos front = false /\ contains eos back = false.
Proof.
  intro H.
  assert (C : contains eos line = true).
  { destruct (contains eos line) eqn:C; [reflexivity|].
    apply occurrences_zero_iff in C. lia. }
  destruct (first_cut _ _ eos_not_empty C) as [a [r [-> Ha]]].
  exists a, r. split; [reflexivity|]. now apply one_marker_sides.
Qed.

Lemma two_markers_cut (line : str) :
  2 <= occurrences eos line ->
  exists a b c,
    line = a ++ eos ++ b ++ eos ++ c /\
    contains eos a = false /\ contains eos b = false.
Proof.
  intro H.
  assert (C : contains eos line = true).
  { destruct (contains eos line) eqn:C; [reflexivity|].
    apply occurrences_zero_iff in C. lia. }
  destruct (first_cut _ _ eos_not_empty C) as [a [r [-> Ha]]].
  rewrite (occurrences_cut _ _ Ha) in H.
  assert (C' : contains eos r = true).
  { destruct (contains eos r) eqn:C'; [reflexivity|].
    apply occurrences_zero_iff in C'. lia. }
  destruct (first_cut _ _ eos_not_empty C') as [b [c [-> Hb]]].
  now exists a, b, c.
Qed.

(** *** Stripping *)

Lemma lstrip_piece (s : str) : exists l, s = l ++ lstrip s.
Proof.
  induction s as [|c s [l IH]]; cbn.
  - now exists [].
  - destruct (isspace c).
    + exists (c :: l). now rewrite IH at 1.
    + now exists [].
Qed.

Lemma strip_piece (s : str) : exists l r, s = l ++ strip s ++ r.
Proof.
  destruct (lstrip_piece s) as [l Hl].
  destruct (lstrip_piece (rev (lstrip s))) as [r Hr].
  exists l, (rev r). unfold strip, rstrip.
  rewrite <- rev_app_distr, <- Hr, rev_involutive. exact Hl.
Qed.

Lemma strip_without (p s : str) :
  contains p s = false -> contains p (strip s) = false.
Proof.
  intro H. destruct (strip_piece s) as [l [r E]].
  rewrite E in H. exact (contains_false_piece _ _ _ _ H).
Qed.

(** *** What the loop body does with a line of one marker *)

Lemma contains_eos_app (l r : str) : contains eos (l ++ eos ++ r) = true.
Proof. apply contains_iff. now exists l, r. Qed.

Lemma drop_last_marker (front : str) :
  drop_last 4 (front ++ eos) = front ++ lit "<".
Proof.
  unfold drop_last. rewrite length_app, firstn_app.
  replace (length front + length eos - 4) with (length front + 1)
    by (cbn; lia).
  rewrite firstn_all2 by lia.
  now replace (length front + 1 - length front) with 1 by lia.
Qed.

Lemma trim_line_one_marker (front back : str) :
  contains eos front = false -> contains eos back = false ->
  trim_line (front ++ eos ++ back) =
    match back, front with
    | [], _ => Some (strip (front ++ lit "<"))
    | _ :: _, [] => Some (strip (lit ">" ++ back))
    | _ :: _, _ :: _ =>
        Some (strip (if length back <? length front then front else back))
    end.
Proof.
  intros Hf Hb. unfold trim_line. rewrite contains_eos_app.
  destruct back as [|b back].
  - assert (E : endswith (front ++ eos ++ []) eos = true)
      by (apply endswith_iff; exists front; now rewrite app_nil_r).
    rewrite E, app_nil_r, drop_last_marker. reflexivity.
  - rewrite (marker_not_at_end front (b :: back)) by (discriminate || exact Hb).
    destruct front as [|f front].
    + reflexivity.
    + rewrite (marker_not_at_start (f :: front)) by (discriminate || exact Hf).
      rewrite (split_eos_cut _ _ Hf), (split_without _ _ Hb).
      now destruct (length (b :: back) <? length (f :: front)).
Qed.

Lemma no_marker_before_bracket (front : str) :
  contains eos front = false -> contains eos (front ++ lit "<") = false.
Proof.
  intro H. apply contains_false_iff. intros l r E.
  destruct r as [|c r].
  - change (front ++ [ascii_of_nat 60]
            = l ++ lit "<eos" ++ [ascii_of_nat 62]) in E.
    rewrite app_assoc in E. apply app_inj_tail in E as [_ E].
    discriminate E.
  - destruct (@exists_last _ (c :: r)) as [m [x Hm]]; [discriminate|].
    rewrite Hm, !app_assoc in E. apply app_inj_tail in E as [E _].
    subst front. now rewrite <- app_assoc, contains_eos_app in H.
Qed.

Lemma no_marker_behind_bracket (back : str) :
  contains eos back = false -> contains eos (lit ">" ++ back) = false.
Proof. intro H. cbn. exact H. Qed.

(** *** Dictionaries *)

Lemma str_eqb_eq (a b : str) : str_eqb a b = true <-> a = b.
Proof.
  revert b. induction a as [|x a IH]; intros [|y b]; cbn;
    try (split; (discriminate || reflexivity)).
  rewrite andb_true_iff, Ascii.eqb_eq, IH. split.
  - now intros [-> ->].
  - intros [= -> ->]. now split.
Qed.

Section DictFacts.
Context {K V : Type} (eqb : K -> K -> bool).
Hypothesis eqb_eq : forall a b, eqb a b = true <-> a = b.

Lemma eqb_refl (k : K) : eqb k k = true.
Proof. now apply eqb_eq. Qed.

Lemma eqb_neq (a b : K) : a <> b -> eqb a b = false.
Proof.
  intro H. destruct (eqb a b) eqn:E; [|reflexivity].
  apply eqb_eq in E. contradiction.
Qed.

Lemma dict_get_none (d : list (K * V)) (k : K) :
  dict_get eqb d k = None <-> ~ In k (keys d).
Proof.
  induction d as [|[k' v] d IH]; cbn.
  - split; [intros _ [] | reflexivity].
  - destruct (eqb k' k) eqn:E.
    + apply eqb_eq in E. split; [discriminate | intro H; exfalso; auto].
    + rewrite IH. split.
      * intros H [-> | H']; [rewrite eqb_refl in E; discriminate | auto].
      * intros H H'. auto.
Qed.

Lemma dict_get_in (d : list (K * V)) (k : K) (v : V) :
  dict_get eqb d k = Some v -> In (k, v) d.
Proof.
  induction d as [|[k' v'] d IH]; cbn; [discriminate|].
  destruct (eqb k' k) eqn:E.
  - apply eqb_eq in E. intros [= ->]. left. now subst.
  - intro H. right. auto.
Qed.

Lemma in_dict_get (d : list (K * V)) (k : K) (v : V) :
  NoDup (keys d) -> In (k, v) d -> dict_get eqb d k = Some v.
Proof.
  induction d as [|[k' v'] d IH]; cbn; [intros _ []|].
  intros N [[= -> ->] | H].
  - now rewrite eqb_refl.
  - inversion N as [|? ? Hk N']; subst.
    rewrite eqb_neq; [auto|].
    intros ->. apply Hk. change k with (fst (k, v)). now apply in_map.
Qed.

(** Assigning to a new key appends it. *)
Lemma dict_set_new (d : list (K * V)) (k : K) (v : V) :
  ~ In k (keys d) -> dict_set eqb d k v = d ++ [(k, v)].
Proof.
  induction d as [|[k' v'] d IH]; cbn; [reflexivity|].
  intro H. rewrite eqb_neq by auto. f_equal. auto.
Qed.

(** Assigning to a key that is there leaves the keys as they are. *)
Lemma dict_set_old_keys (d : list (K * V)) (k : K) (v : V) :
  In k (keys d) -> keys (dict_set eqb d k v) = keys d.
Proof.
  induction d as [|[k' v'] d IH]; cbn; [intros []|].
  destruct (eqb k' k) eqn:E; [reflexivity|].
  intros [-> | H]; [rewrite eqb_refl in E; discriminate|].
  cbn. f_equal. auto.
Qed.

Lemma dict_of_from (pairs : list (K * V)) :
  forall d, NoDup (keys (d ++ pairs)) ->
    fold_left (fun d kv => dict_set eqb d (fst kv) (snd kv)) pairs d
    = d ++ pairs.
Proof.
  induction pairs as [|[k v] pairs IH]; intros d N; cbn.
  - now rewrite app_nil_r.
  - assert (E : d ++ (k, v) :: pairs = (d ++ [(k, v)]) ++ pairs)
      by now rewrite <- app_assoc.
    rewrite dict_set_new.
    + rewrite IH; [now rewrite E | now rewrite <- E].
    + unfold keys in N. rewrite map_app in N. cbn in N.
      apply NoDup_remove_2 in N. intro H. apply N.
      apply in_or_app. now left.
Qed.

(** [dict(pairs)] of pairs with distinct keys holds these pairs, in
    their order. *)
Lemma dict_of_distinct (pairs : list (K * V)) :
  NoDup (keys pairs) -> dict_of eqb pairs = pairs.
Proof. intro N. apply (dict_of_from pairs []). exact N. Qed.
End DictFacts.

(** *** The vocabulary *)

Lemma word_counts_all_words (texts : list str) :
  word_counts texts = fold_left count_word (all_words texts) [].
Proof.
  unfold word_counts, all_words. generalize (@nil (str * nat)).
  induction texts as [|t texts IH]; intro d; cbn; [reflexivity|].
  now rewrite fold_left_app, IH.
Qed.

Lemma count_word_keys (wc : list (str * nat)) (w : str) :
  (In w (keys wc) /\ keys (count_word wc w) = keys wc) \/
  (~ In w (keys wc) /\ keys (count_word wc w) = keys wc ++ [w]).
Proof.
  unfold count_word. destruct (dict_get str_eqb wc w) as [c|] eqn:E.
  - left. apply (dict_get_in _ str_eqb_eq) in E.
    assert (I : In w (keys wc))
      by (change w with (fst (w, c)); now apply in_map).
    split; [exact I|]. now apply (dict_set_old_keys _ str_eqb_eq).
  - right. apply (dict_get_none _ str_eqb_eq) in E.
    split; [exact E|].
    rewrite (dict_set_new _ str_eqb_eq) by exact E.
    unfold keys. now rewrite map_app.
Qed.

Lemma counted_keys (ws : list str) :
  forall d : list (str * nat),
    NoDup (keys d) ->
    NoDup (keys (fold_left count_word ws d)) /\
    forall k, In k (keys (fold_left count_word ws d))
              <-> In k (keys d) \/ In k ws.
Proof.
  induction ws as [|w ws IH]; intros d N; cbn [fold_left].
  - split; [exact N|]. intro k. cbn. tauto.
  - assert (N' : NoDup (keys (count_word d w))).
    { destruct (count_word_keys d w) as [[_ ->] | [H ->]]; [exact N|].
      apply NoDup_app; [exact N | repeat constructor; intros [] |].
      intros x Hx [<- | []]. contradiction. }
    destruct (IH _ N') as [N'' I]. split; [exact N''|].
    intro k. rewrite I. cbn [In].
    destruct (count_word_keys d w) as [[H ->] | [H ->]].
    + split; [tauto|]. intros [?|[<-|?]]; tauto.
    + rewrite in_app_iff. cbn [In]. tauto.
Qed.

Lemma insert_by_count_perm (x : str * nat) (l : list (str * nat)) :
  Permutation (insert_by_count x l) (x :: l).
Proof.
  induction l as [|y l IH]; cbn [insert_by_count]; [reflexivity|].
  destruct (snd x <? snd y); [|reflexivity].
  rewrite IH. apply perm_swap.
Qed.

Lemma sort_by_count_perm (l : list (str * nat)) :
  Permutation (sort_by_count l) l.
Proof.
  induction l as [|x l IH]; cbn [sort_by_count fold_right]; [reflexivity|].
  rewrite insert_by_count_perm. now constructor.
Qed.

Lemma sorted_voc_perm (texts : list str) :
  Permutation (sorted_voc texts) (keys (word_counts texts)).
Proof. apply Permutation_map, sort_by_count_perm. Qed.

Lemma sorted_voc_nodup (texts : list str) : NoDup (sorted_voc texts).
Proof.
  apply (Permutation_NoDup (Permutation_sym (sorted_voc_perm texts))).
  rewrite word_counts_all_words.
  apply counted_keys. constructor.
Qed.

Lemma sorted_voc_in (texts : list str) (w : str) :
  In w (sorted_voc texts) <-> In w (all_words texts).
Proof.
  split; intro H.
  - apply (Permutation_in _ (sorted_voc_perm texts)) in H.
    rewrite word_counts_all_words in H.
    apply counted_keys in H; [|constructor]. destruct H as [[] | H]. exact H.
  - apply (Permutation_in _ (Permutation_sym (sorted_voc_perm texts))).
    rewrite word_counts_all_words.
    apply counted_keys; [constructor | now right].
Qed.

Lemma keys_combine {A B : Type} (l : list A) (l' : list B) :
  length l = length l' -> map fst (combine l l') = l.
Proof.
  revert l'. induction l as [|x l IH]; intros [|y l'] H; cbn in *;
    try discriminate; [reflexivity|].
  f_equal. apply IH. lia.
Qed.

Lemma values_combine {A B : Type} (l : list A) (l' : list B) :
  length l = length l' -> map snd (combine l l') = l'.
Proof.
  revert l'. induction l as [|x l IH]; intros [|y l'] H; cbn in *;
    try discriminate; [reflexivity|].
  f_equal. apply IH. lia.
Qed.

(** The word index pairs the words, most counted first, with 1, 2, ... *)
Lemma word_index_combine (texts : list str) :
  word_index texts
  = combine (sorted_voc texts) (seq 1 (length (sorted_voc texts))).
Proof.
  unfold word_index, range.
  replace (length (sorted_voc texts) + 1 - 1) with (length (sorted_voc texts))
    by lia.
  apply (dict_of_distinct _ str_eqb_eq). unfold keys.
  rewrite keys_combine by now rewrite length_seq.
  apply sorted_voc_nodup.
Qed.

Lemma word_index_keys (texts : list str) :
  keys (word_index texts) = sorted_voc texts.
Proof.
  rewrite word_index_combine. apply keys_combine. now rewrite length_seq.
Qed.

Lemma word_index_values (texts : list str) :
  map snd (word_index texts) = seq 1 (length (word_index texts)).
Proof.
  rewrite <- (length_map fst). fold (keys (word_index texts)).
  rewrite word_index_keys, word_index_combine.
  apply values_combine. now rewrite length_seq.
Qed.

Lemma index_word_lookup_swap (texts : list str) :
  index_word_lookup texts
  = map (fun kv => (snd kv, fst kv)) (word_index texts).
Proof.
  unfold index_word_lookup.
  apply (dict_of_distinct _ Nat.eqb_eq). unfold keys.
  rewrite map_map. cbn [fst]. rewrite word_index_values. apply seq_NoDup.
Qed.

(** *** Lines of plain tokens

    The tokenizer reads a line of plain tokens as these tokens. *)

Lemma alpha_not_filter (c : ascii) :
  isalpha_char c = true -> is_filter c = false.
Proof.
  destruct c as [[] [] [] [] [] [] [] []]; vm_compute; intro H;
    first [reflexivity | discriminate H].
Qed.

Lemma alpha_not_space (c : ascii) :
  isalpha_char c = true -> Ascii.eqb space_char c = false.
Proof.
  destruct c as [[] [] [] [] [] [] [] []]; vm_compute; intro H;
    first [reflexivity | discriminate H].
Qed.

Lemma plain_chars (t : str) (c : ascii) :
  plain t -> In c t -> isalpha_char c = true.
Proof.
  intros [H _] Hc. destruct t as [|x t]; [destruct Hc|].
  unfold isalpha in H. rewrite forallb_forall in H. auto.
Qed.

Lemma plain_not_empty (t : str) : plain t -> is_empty t = false.
Proof. intros [H _]. destruct t; [discriminate H | reflexivity]. Qed.

Lemma in_join (ts : list str) (c : ascii) :
  In c (join space ts) ->
  c = space_char \/ exists t, In t ts /\ In c t.
Proof.
  induction ts as [|t [|t' ts] IH]; intro H.
  - destruct H.
  - right. exists t. split; [now left | exact H].
  - change (In c (t ++ space ++ join space (t' :: ts))) in H.
    rewrite !in_app_iff in H. destruct H as [H | [H | H]].
    + right. exists t. split; [now left | exact H].
    + left. destruct H as [<- | []]. reflexivity.
    + destruct (IH H) as [-> | [u [Hu Hc]]]; [now left|].
      right. exists u. split; [now right | exact Hc].
Qed.

Lemma lower_join (ts : list str) :
  Forall plain ts -> lower (join space ts) = join space ts.
Proof.
  induction ts as [|t [|t' ts] IH]; intro H.
  - reflexivity.
  - inversion H as [|? ? [_ E] _]. exact E.
  - inversion H as [|? ? [_ E] H']; subst.
    change (lower (t ++ space ++ join space (t' :: ts))
            = t ++ space ++ join space (t' :: ts)).
    unfold lower in *. rewrite !map_app, E, (IH H'). reflexivity.
Qed.

Lemma no_filter_no_change (s : str) :
  (forall c, In c s -> is_filter c = false) ->
  flat_map (fun c => if is_filter c then space else [c]) s = s.
Proof.
  induction s as [|c s IH]; intro H; [reflexivity|].
  cbn [flat_map]. rewrite (H c) by now left.
  cbn. f_equal. apply IH. intros c' Hc'. apply H. now right.
Qed.

Lemma startswith_space (c : ascii) (t : str) :
  startswith (c :: t) space = Ascii.eqb space_char c.
Proof.
  change (startswith (c :: t) space) with (Ascii.eqb space_char c && true).
  apply andb_true_r.
Qed.

Lemma contains_space_false (t : str) :
  (forall c, In c t -> Ascii.eqb space_char c = false) ->
  contains space t = false.
Proof.
  induction t as [|c t IH]; intro H; [reflexivity|].
  rewrite contains_cons. apply orb_false_iff. split.
  - rewrite startswith_space. apply H. now left.
  - apply IH. intros c' Hc'. apply H. now right.
Qed.

Lemma find_space_first (front back : str) :
  (forall c, In c front -> Ascii.eqb space_char c = false) ->
  find space (front ++ space ++ back) = Some (length front).
Proof.
  induction front as [|c f IH]; intro H; [reflexivity|].
  cbn [app find]. rewrite startswith_space, (H c) by now left.
  rewrite IH; [reflexivity|].
  intros c' Hc'. apply H. now right.
Qed.

Lemma split_join_plain (ts : list str) :
  Forall plain ts ->
  filter (fun i => negb (is_empty i)) (split space (join space ts)) = ts.
Proof.
  assert (Sp : forall t, plain t ->
                 forall c, In c t -> Ascii.eqb space_char c = false).
  { intros t Ht c Hc. apply alpha_not_space. exact (plain_chars t c Ht Hc). }
  induction ts as [|t [|t' ts] IH]; intro H.
  - reflexivity.
  - inversion H as [|? ? Ht _]; subst. cbn [join].
    rewrite split_without by (apply contains_space_false; now apply Sp).
    cbn [filter]. now rewrite (plain_not_empty t Ht).
  - inversion H as [|? ? Ht H']; subst.
    change (join space (t :: t' :: ts))
      with (t ++ space ++ join space (t' :: ts)).
    rewrite split_at_first;
      [| discriminate | apply find_space_first; now apply Sp].
    cbn [filter]. rewrite (plain_not_empty t Ht). cbn [negb].
    f_equal. exact (IH H').
Qed.

Lemma words_of_plain_line (ts : list str) :
  Forall plain ts -> text_to_word_sequence (join space ts) = ts.
Proof.
  intro H. unfold text_to_word_sequence.
  rewrite (lower_join ts H), no_filter_no_change.
  - now apply split_join_plain.
  - intros c Hc. apply in_join in Hc as [-> | [t [Ht Hc]]]; [reflexivity|].
    apply alpha_not_filter. apply (plain_chars t c); [|exact Hc].
    rewrite Forall_forall in H. auto.
Qed.

Lemma all_words_plain (windows : list (list str)) :
  Forall (Forall plain) windows ->
  all_words (map (join space) windows) = concat windows.
Proof.
  induction windows as [|w ws IH]; intro H; [reflexivity|].
  inversion H as [|? ? Hw Hws]; subst.
  unfold all_words in *. cbn [map flat_map concat].
  now rewrite (words_of_plain_line w Hw), (IH Hws).
Qed.

(** *** The marked text *)

Lemma replace_char_app (old : ascii) (new a b : str) :
  replace_char old new (a ++ b)
  = replace_char old new a ++ replace_char old new b.
Proof. apply flat_map_app. Qed.

Lemma entry_app (a b : str) : entry (a ++ b) = entry a ++ entry b.
Proof. unfold entry. now rewrite !replace_char_app. Qed.

Lemma parse_text_from (data : list str) :
  forall acc,
    fold_left (fun full_text text => full_text ++ entry text) data acc
    = acc ++ entry (concat data).
Proof.
  induction data as [|t data IH]; intro acc; cbn [fold_left concat].
  - now rewrite app_nil_r.
  - now rewrite IH, entry_app, app_assoc.
Qed.

Lemma parse_text_entry (data : list str) :
  parse_text data = entry (concat data).
Proof. apply (parse_text_from data []). Qed.

Lemma entry_cons (c : ascii) (t : str) :
  entry (c :: t) =
  (if Ascii.eqb c newline then []
   else if Ascii.eqb c apostrophe then []
        else if Ascii.eqb c period then space ++ eos ++ space else [c])
  ++ entry t.
Proof.
  change (c :: t) with ([c] ++ t). rewrite entry_app. f_equal.
  unfold entry, replace_char. cbn [flat_map app].
  destruct (Ascii.eqb c newline); [reflexivity|]. cbn [flat_map app].
  destruct (Ascii.eqb c apostrophe); [reflexivity|]. cbn [flat_map app].
  now rewrite app_nil_r.
Qed.

Lemma startswith_eos_head (c : ascii) (s : str) :
  startswith (c :: s) eos = true -> c = ascii_of_nat 60.
Proof.
  intro H. apply startswith_iff in H as [r H]. now injection H.
Qed.




(** ** The text normalizer *)






(** C6 as stated fails: [parse_text] keeps case and spacing, and it puts
    nothing between two records, so that the last word of one and the
    first of the next come out as one token. *)
Lemma C6_example_differs :
  parse_text example_records
    = lit "Great food <eos>  Loved itTerrible service <eos> " /\
  clean_text (parse_text example_records)
    = map lit ["great"; "food"; "<eos>"; "loved"; "itterrible"; "service";
               "<eos>"] /\
  parse_text example_records
    <> lit "great food <eos> loved it terrible service <eos>" /\
  clean_text (parse_text example_records)
    <> map lit ["great"; "food"; "<eos>"; "loved"; "it"; "terrible";
                "service"; "<eos>"].
Proof.
  repeat split; try reflexivity; vm_compute; discriminate.
Qed.

(** C6, for what the example shows of a single record: [parse_text] turns
    each record of the example into marked text that keeps case and
    spacing, and [clean_text] turns that into its lower-case tokens; for
    the two records together the tokens begin with great, food, the
    marker, loved and end with service, the marker. *)
Theorem C6_example_record_by_record :
  parse_text [lit "Great food. Loved it"] = lit "Great food <eos>  Loved it" /\
  parse_text [lit "Terrible service."] = lit "Terrible service <eos> " /\
  clean_text (parse_text [lit "Great food. Loved it"])
    = map lit ["great"; "food"; "<eos>"; "loved"; "it"] /\
  clean_text (parse_text [lit "Terrible service."])
    = map lit ["terrible"; "service"; "<eos>"] /\
  firstn 4 (clean_text (parse_text example_records))
    = map lit ["great"; "food"; "<eos>"; "loved"] /\
  skipn (length (clean_text (parse_text example_records)) - 2)
        (clean_text (parse_text example_records))
    = map lit ["service"; "<eos>"].
Proof. repeat split; reflexivity. Qed.

(** ** The sequence windower *)

Lemma sequences_from_app (tokens acc : list str) (a b : list nat) :
  sequences_from tokens acc (a ++ b)
  = sequences_from tokens (sequences_from tokens acc a) b.
Proof. apply fold_left_app. Qed.

Lemma sequences_from_extends (tokens : list str) (indices : list nat) :
  forall acc, exists more, sequences_from tokens acc indices = acc ++ more.
Proof.
  induction indices as [|i indices IH]; intro acc; cbn.
  - exists []. now rewrite app_nil_r.
  - destruct (IH (loop_body tokens acc i)) as [more E].
    unfold sequences_from in E. rewrite E. unfold loop_body.
    destruct (trim_line (line_at tokens i)) as [line|].
    + exists (line :: more). now rewrite <- app_assoc.
    + now exists more.
Qed.

Lemma sequences_from_produce (tokens : list str) (indices : list nat) :
  forall acc,
    sequences_from tokens acc indices
    = produce_from acc
        (map (fun i => slice tokens (i - window_length) i) indices).
Proof.
  induction indices as [|i l IH]; intro acc; [reflexivity|].
  cbn [map]. unfold sequences_from, produce_from in *. cbn [fold_left].
  rewrite IH. reflexivity.
Qed.

Lemma sequences_produce (tokens : list str) :
  sequences tokens = produce (candidate_windows tokens).
Proof. apply sequences_from_produce. Qed.

Lemma slice_app_within {A : Type} (l r : list A) (a b : nat) :
  b <= length l -> slice (l ++ r) a b = slice l a b.
Proof.
  intro H. unfold slice.
  rewrite skipn_app, firstn_app, length_skipn.
  replace (b - a - (length l - a)) with 0 by lia.
  cbn. apply app_nil_r.
Qed.

Lemma candidate_windows_last (tokens : list str) (x : str) :
  candidate_windows (tokens ++ [x])
  = map (fun i => slice tokens (i - window_length) i)
        (range window_length (length tokens + 1)).
Proof.
  unfold candidate_windows. rewrite length_app. cbn [length].
  apply map_ext_in. intros i Hi. unfold range in Hi.
  apply in_seq in Hi. apply slice_app_within. lia.
Qed.

Lemma trim_line_single_marker (line : str) :
  occurrences eos line = 1 ->
  exists out, trim_line line = Some out /\ contains eos out = false.
Proof.
  intro H. destruct (one_marker_cut line H) as [front [back [-> [Hf Hb]]]].
  rewrite (trim_line_one_marker _ _ Hf Hb).
  destruct back as [|b back]; [|destruct front as [|f front]];
    eexists; (split; [reflexivity|]); apply strip_without.
  - now apply no_marker_before_bracket.
  - now apply no_marker_behind_bracket.
  - now destruct (length (b :: back) <? length (f :: front)).
Qed.

(** Stripping does not reach an occurrence of a pattern that begins and
    ends with characters that are no whitespace. *)
Lemma lstrip_keeps (c : ascii) (p s : str) :
  isspace c = false ->
  contains (c :: p) s = true -> contains (c :: p) (lstrip s) = true.
Proof.
  intros Hc H. apply contains_iff in H as [l [r ->]].
  induction l as [|x l IH]; cbn [app lstrip].
  - rewrite Hc. apply contains_iff. now exists [], r.
  - destruct (isspace x); [exact IH|].
    apply contains_iff. now exists (x :: l), r.
Qed.

Lemma contains_rev (p s : str) :
  contains p s = true -> contains (rev p) (rev s) = true.
Proof.
  intro H. apply contains_iff in H as [l [r ->]].
  apply contains_iff. exists (rev r), (rev l).
  now rewrite !rev_app_distr, <- app_assoc.
Qed.

Lemma strip_keeps_marker (s : str) :
  contains eos s = true -> contains eos (strip s) = true.
Proof.
  intro H. unfold strip, rstrip.
  change eos with (rev (rev eos)). apply contains_rev.
  apply (lstrip_keeps (ascii_of_nat 62) (lit "soe<")); [reflexivity|].
  apply (contains_rev eos). now apply (lstrip_keeps (ascii_of_nat 60)).
Qed.

(** A line with at least two markers, one of them at an end, is appended
    with a marker left in it. *)
Lemma trim_line_edge_and_more (line : str) :
  2 <= occurrences eos line ->
  endswith line eos = true \/ startswith line eos = true ->
  exists out, trim_line line = Some out /\ contains eos out = true.
Proof.
  intros H E.
  assert (C : contains eos line = true).
  { destruct (contains eos line) eqn:C; [reflexivity|].
    apply occurrences_zero_iff in C. lia. }
  unfold trim_line. rewrite C.
  destruct (endswith line eos) eqn:En.
  - eexists. split; [reflexivity|]. apply strip_keeps_marker.
    destruct (two_markers_cut _ H) as [a [b [c [-> _]]]].
    unfold drop_last. rewrite (app_assoc a eos), firstn_app.
    rewrite firstn_all2
      by (rewrite !length_app; cbn [length eos lit]; cbn; lia).
    rewrite <- app_assoc. apply contains_eos_app.
  - destruct E as [E | E]; [discriminate E|]. rewrite E.
    eexists. split; [reflexivity|]. apply strip_keeps_marker.
    apply startswith_iff in E as [rest ->].
    change (eos ++ rest) with ([] ++ eos ++ rest) in H.
    rewrite (occurrences_cut [] rest eq_refl) in H.
    assert (C' : contains eos rest = true).
    { destruct (contains eos rest) eqn:C'; [reflexivity|].
      apply occurrences_zero_iff in C'. lia. }
    apply contains_iff in C' as [l [r ->]].
    apply contains_iff. exists (ascii_of_nat 62 :: l), r. reflexivity.
Qed.

(** C1, as the code has it: for a candidate window whose line holds the
    boundary marker exactly once, the loop appends the trimmed line, and
    that line holds no marker; for a candidate window whose line holds the
    marker at least twice and starts or ends with it, the loop appends a
    line as well, and that line still holds the marker. *)
Theorem C1_single_marker_trimmed_away (tokens acc : list str) (i : nat) :
  (occurrences eos (line_at tokens i) = 1 ->
   exists out,
     trim_line (line_at tokens i) = Some out /\
     loop_body tokens acc i = acc ++ [out] /\
     contains eos out = false) /\
  (2 <= occurrences eos (line_at tokens i) ->
   endswith (line_at tokens i) eos = true \/
   startswith (line_at tokens i) eos = true ->
   exists out,
     trim_line (line_at tokens i) = Some out /\
     loop_body tokens acc i = acc ++ [out] /\
     contains eos out = true).
Proof.
  split.
  - intro H. destruct (trim_line_single_marker _ H) as [out [T C]].
    exists out. unfold loop_body. rewrite T. now repeat split.
  - intros H E. destruct (trim_line_edge_and_more _ H E) as [out [T C]].
    exists out. unfold loop_body. rewrite T. now repeat split.
Qed.

Lemma C1_single_marker_trimmed_away_witness :
  (occurrences eos (line_at window_marker_inside 11) = 1 /\
   exists out,
     trim_line (line_at window_marker_inside 11) = Some out /\
     loop_body window_marker_inside [] 11 = [] ++ [out] /\
     contains eos out = false) /\
  (2 <= occurrences eos (line_at stream_marker_inside_and_last 11) /\
   (endswith (line_at stream_marker_inside_and_last 11) eos = true \/
    startswith (line_at stream_marker_inside_and_last 11) eos = true) /\
   exists out,
     trim_line (line_at stream_marker_inside_and_last 11) = Some out /\
     loop_body stream_marker_inside_and_last [] 11 = [] ++ [out] /\
     contains eos out = true).
Proof.
  split.
  - split; [reflexivity|].
    apply (proj1 (C1_single_marker_trimmed_away window_marker_inside [] 11)).
    reflexivity.
  - assert (O : 2 <= occurrences eos
                       (line_at stream_marker_inside_and_last 11))
      by (vm_compute; lia).
    assert (E : endswith (line_at stream_marker_inside_and_last 11) eos = true
                \/ startswith (line_at stream_marker_inside_and_last 11) eos
                   = true) by (left; reflexivity).
    split; [exact O|]. split; [exact E|].
    exact (proj2 (C1_single_marker_trimmed_away
                    stream_marker_inside_and_last [] 11) O E).
Defined.

(** C1 as stated fails: a window that ends with a marker and has another
    one inside is kept, and the line made of it still holds the marker. *)
Lemma C1_marker_left_in_window :
  length window_marker_inside_and_last = window_length /\
  contains eos (join space window_marker_inside_and_last) = true /\
  trim_line (join space window_marker_inside_and_last)
    = Some (lit "a <eos> c d e f g h i j <") /\
  sequences stream_marker_inside_and_last
    = [lit "a <eos> c d e f g h i j <"] /\
  contains eos (lit "a <eos> c d e f g h i j <") = true.
Proof. repeat split; reflexivity. Qed.

(** C2 at windows with the marker last and first: the loop body cuts four
    characters where the marker has five, and the lines keep one bracket
    of the marker. *)
Theorem C2_edge_marker_leaves_bracket :
  trim_line (join space window_marker_last)
    = Some (lit "a b c d e f g h i j <") /\
  trim_line (join space window_marker_first)
    = Some (lit "> b c d e f g h i j k") /\
  sequences (clean_text (parse_text [lit "a b c d e f g h i j. k l"]))
    = [lit "a b c d e f g h i j <"; lit "b c d e f g h i j"].
Proof. repeat split; reflexivity. Qed.

(** C3: where a line has text on both sides of its only marker, the loop
    body keeps the side of more characters, stripped, and the back side
    when both sides have as many. *)
Theorem C3_longer_side_kept (front back : str) :
  front <> [] -> back <> [] ->
  occurrences eos (front ++ eos ++ back) = 1 ->
  (length back < length front ->
   trim_line (front ++ eos ++ back) = Some (strip front)) /\
  (length front <= length back ->
   trim_line (front ++ eos ++ back) = Some (strip back)).
Proof.
  intros Hf Hb H. apply one_marker_sides in H as [Cf Cb].
  rewrite (trim_line_one_marker _ _ Cf Cb).
  destruct back as [|b back]; [contradiction|].
  destruct front as [|f front]; [contradiction|].
  split; intro L.
  - apply Nat.ltb_lt in L. now rewrite L.
  - apply Nat.ltb_ge in L. now rewrite L.
Qed.

Lemma C3_longer_side_kept_witness :
  join space window_marker_inside
    = lit "a b c " ++ eos ++ lit " e f g h i j k" /\
  length (lit "a b c ") <= length (lit " e f g h i j k") /\
  trim_line (join space window_marker_inside) = Some (lit "e f g h i j k").
Proof.
  split; [reflexivity|].
  split; [vm_compute; lia|].
  apply (C3_longer_side_kept (lit "a b c ") (lit " e f g h i j k"));
    [discriminate | discriminate | reflexivity | vm_compute; lia].
Defined.

(** C4, as the code has it: a window with more than one marker and none
    at either end is not appended; the list built so far stays as it is,
    the loop goes on with the windows behind it as if the window had not
    been there, and what was appended before stays in front. *)
Theorem C4_inner_markers_discarded
  (tokens acc : list str) (before after : list nat) (i : nat) :
  2 <= occurrences eos (line_at tokens i) ->
  startswith (line_at tokens i) eos = false ->
  endswith (line_at tokens i) eos = false ->
  trim_line (line_at tokens i) = None /\
  loop_body tokens acc i = acc /\
  sequences_from tokens acc (before ++ i :: after)
    = sequences_from tokens acc (before ++ after) /\
  exists more, sequences_from tokens acc (before ++ i :: after) = acc ++ more.
Proof.
  intros H Hs He.
  assert (T : trim_line (line_at tokens i) = None).
  { destruct (two_markers_cut _ H) as [a [b [c [E [Ha Hb]]]]].
    unfold trim_line. rewrite Hs, He, E, contains_eos_app.
    rewrite (split_eos_cut _ _ Ha), (split_eos_cut _ _ Hb).
    pose proof (split_not_nil eos c) as L.
    destruct (split eos c); [cbn in L; lia | reflexivity]. }
  assert (B : forall acc', loop_body tokens acc' i = acc')
    by (intro acc'; unfold loop_body; now rewrite T).
  repeat split; [exact T | apply B | | apply sequences_from_extends].
  rewrite !sequences_from_app. cbn. unfold sequences_from. now rewrite B.
Qed.

Lemma C4_inner_markers_discarded_witness :
  2 <= occurrences eos (line_at stream_two_markers_inside 12) /\
  trim_line (line_at stream_two_markers_inside 12) = None /\
  sequences_from stream_two_markers_inside [] ([11] ++ 12 :: [])
    = sequences_from stream_two_markers_inside [] ([11] ++ []).
Proof.
  split; [vm_compute; lia|].
  destruct (C4_inner_markers_discarded stream_two_markers_inside [] [11] [] 12)
    as [T [_ [E _]]]; [vm_compute; lia | reflexivity | reflexivity |].
  split; [exact T | exact E].
Defined.

(** C4 as stated fails: a window that begins with a marker and has another
    one inside is kept. *)
Lemma C4_two_markers_kept :
  occurrences eos (line_at stream_marker_first_and_inside 11) = 2 /\
  trim_line (line_at stream_marker_first_and_inside 11)
    = Some (lit "> b <eos> d e f g h i j k") /\
  sequences stream_marker_first_and_inside
    = [lit "> b <eos> d e f g h i j k"].
Proof. repeat split; reflexivity. Qed.

(** C10: the loop looks at max(0, len(tokens) - 11) candidate windows;
    every window of a stream is a slice of the stream without its last
    token, so that the sequences do not depend on that token; and a stream
    of at most eleven tokens gives no sequence. *)
Theorem C10_loop_bounds (tokens : list str) (x y : str) :
  Z.of_nat (length (candidate_windows tokens))
    = Z.max 0 (Z.of_nat (length tokens) - 11) /\
  sequences tokens = produce (candidate_windows tokens) /\
  candidate_windows (tokens ++ [x])
    = map (fun i => slice tokens (i - window_length) i)
          (range window_length (length tokens + 1)) /\
  sequences (tokens ++ [x]) = sequences (tokens ++ [y]) /\
  (length tokens <= 11 -> candidate_windows tokens = [] /\ sequences tokens = []).
Proof.
  split; [|split; [|split; [|split]]].
  - unfold candidate_windows, range, window_length.
    rewrite length_map, length_seq. lia.
  - apply sequences_produce.
  - apply candidate_windows_last.
  - now rewrite !sequences_produce, !candidate_windows_last.
  - intro H. rewrite sequences_produce. unfold candidate_windows, range.
    replace (length tokens - window_length) with 0
      by (unfold window_length; lia).
    split; reflexivity.
Qed.

Lemma C10_loop_bounds_witness :
  length window_marker_inside <= 11 /\
  candidate_windows window_marker_inside = [] /\
  sequences window_marker_inside = [].
Proof.
  split; [vm_compute; lia|].
  apply (C10_loop_bounds window_marker_inside [] []). vm_compute. lia.
Defined.

(** ** The vocabulary encoder *)

Lemma word_index_length (texts : list str) :
  length (word_index texts) = length (nodup str_eq_dec (all_words texts)).
Proof.
  rewrite <- (length_map fst). fold (keys (word_index texts)).
  rewrite word_index_keys. apply Permutation_length.
  apply NoDup_Permutation.
  - apply sorted_voc_nodup.
  - apply NoDup_nodup.
  - intro w. now rewrite sorted_voc_in, nodup_In.
Qed.

Lemma word_index_total (texts : list str) (w : str) :
  In w (all_words texts) ->
  exists i, dict_get str_eqb (word_index texts) w = Some i.
Proof.
  intro H. apply sorted_voc_in in H. rewrite <- word_index_keys in H.
  destruct (dict_get str_eqb (word_index texts) w) as [i|] eqn:E.
  - now exists i.
  - apply (dict_get_none _ str_eqb_eq) in E. contradiction.
Qed.

Lemma index_word_lookup_keys (texts : list str) :
  NoDup (keys (index_word_lookup texts)).
Proof.
  rewrite index_word_lookup_swap. unfold keys.
  rewrite map_map. cbn [fst]. rewrite word_index_values. apply seq_NoDup.
Qed.

Lemma index_word_lookup_inverts (texts : list str) (w : str) (i : nat) :
  dict_get str_eqb (word_index texts) w = Some i <->
  dict_get Nat.eqb (index_word_lookup texts) i = Some w.
Proof.
  split; intro H.
  - apply (dict_get_in _ str_eqb_eq) in H.
    apply (in_dict_get _ Nat.eqb_eq); [apply index_word_lookup_keys|].
    rewrite index_word_lookup_swap.
    change (i, w) with ((fun kv : str * nat => (snd kv, fst kv)) (w, i)).
    now apply in_map.
  - apply (dict_get_in _ Nat.eqb_eq) in H.
    rewrite index_word_lookup_swap in H.
    apply in_map_iff in H as [[w' i'] [[= -> ->] H]].
    apply (in_dict_get _ str_eqb_eq); [|exact H].
    rewrite word_index_keys. apply sorted_voc_nodup.
Qed.

Lemma decode_encode_words (texts : list str) (ws : list str) :
  (forall w, In w ws -> In w (all_words texts)) ->
  map (dict_get Nat.eqb (index_word_lookup texts))
      (flat_map (fun w => match dict_get str_eqb (word_index texts) w with
                          | Some i => [i]
                          | None => []
                          end) ws)
  = map Some ws.
Proof.
  induction ws as [|w ws IH]; intro H; [reflexivity|].
  cbn [flat_map map].
  destruct (word_index_total texts w) as [i E]; [apply H; now left|].
  rewrite E. cbn [app map].
  rewrite (proj1 (index_word_lookup_inverts _ _ _) E). f_equal.
  apply IH. intros w' Hw'. apply H. now right.
Qed.

(** C8, as the code has it: the inverted lookup takes the id of a word of
    the vocabulary back to the word, and nothing else to a word; every
    word that the tokenizer reads
    in the sequences has an id; decoding the ids of a sequence gives the
    words that the tokenizer reads in it, in their order; and for a
    sequence of plain tokens these words are its tokens. *)
Theorem C8_decode_encode
  (sequences : list str) (line w : str) (i : nat) (ts : list str) :
  (dict_get str_eqb (word_index sequences) w = Some i <->
   dict_get Nat.eqb (index_word_lookup sequences) i = Some w) /\
  (In w (all_words sequences) ->
   exists j, dict_get str_eqb (word_index sequences) w = Some j) /\
  (In line sequences ->
   map (dict_get Nat.eqb (index_word_lookup sequences))
       (text_to_sequence (word_index sequences) line)
   = map Some (text_to_word_sequence line)) /\
  (In (join space ts) sequences -> Forall plain ts ->
   map (dict_get Nat.eqb (index_word_lookup sequences))
       (text_to_sequence (word_index sequences) (join space ts))
   = map Some ts).
Proof.
  assert (D : forall l, In l sequences ->
            map (dict_get Nat.eqb (index_word_lookup sequences))
                (text_to_sequence (word_index sequences) l)
            = map Some (text_to_word_sequence l)).
  { intros l H. apply decode_encode_words.
    intros w' Hw'. apply in_flat_map. now exists l. }
  split; [apply index_word_lookup_inverts|].
  split; [apply word_index_total|].
  split; [apply D|].
  intros H P. rewrite (D _ H). now rewrite words_of_plain_line.
Qed.

Lemma C8_decode_encode_witness :
  dict_get str_eqb (word_index (sequences stream_plain)) (lit "food")
    = Some 3 /\
  dict_get Nat.eqb (index_word_lookup (sequences stream_plain)) 3
    = Some (lit "food") /\
  In (join space (firstn 11 stream_plain)) (sequences stream_plain) /\
  Forall plain (firstn 11 stream_plain) /\
  map (dict_get Nat.eqb (index_word_lookup (sequences stream_plain)))
      (text_to_sequence (word_index (sequences stream_plain))
         (join space (firstn 11 stream_plain)))
  = map Some (firstn 11 stream_plain).
Proof.
  assert (I : In (join space (firstn 11 stream_plain))
                 (sequences stream_plain)) by (vm_compute; now left).
  assert (P : Forall plain (firstn 11 stream_plain))
    by (repeat first [apply Forall_nil | apply Forall_cons
                     | split; reflexivity]).
  destruct (C8_decode_encode (sequences stream_plain)
              (join space (firstn 11 stream_plain))
              (lit "food") 3 (firstn 11 stream_plain)) as [A [_ [_ B]]].
  split; [reflexivity|].
  split; [apply (proj1 A); reflexivity|].
  split; [exact I|].
  split; [exact P|].
  exact (B I P).
Defined.

(** C8 as stated fails: the tokenizer reads the marker as the word eos,
    so that the marker of a sequence has no id and the decoded ids are
    not the tokens of the sequence. *)
Lemma C8_marker_not_recovered :
  sequences stream_marker_first_and_inside
    = [lit "> b <eos> d e f g h i j k"] /\
  dict_get str_eqb (word_index (sequences stream_marker_first_and_inside)) eos
    = None /\
  map (dict_get Nat.eqb
         (index_word_lookup (sequences stream_marker_first_and_inside)))
      (text_to_sequence (word_index (sequences stream_marker_first_and_inside))
         (lit "> b <eos> d e f g h i j k"))
    = map Some (map lit ["b"; "eos"; "d"; "e"; "f"; "g"; "h"; "i"; "j"; "k"]) /\
  map (dict_get Nat.eqb
         (index_word_lookup (sequences stream_marker_first_and_inside)))
      (text_to_sequence (word_index (sequences stream_marker_first_and_inside))
         (lit "> b <eos> d e f g h i j k"))
    <> map Some (split_ws (lit "> b <eos> d e f g h i j k")).
Proof.
  repeat split; try reflexivity. vm_compute. discriminate.
Qed.

(** C9, as the code has it: the vocabulary size is one more than the
    number of distinct words that the tokenizer reads in the sequences;
    the ids of the words are 1, 2, ... up to their number, so that 0 is
    the id of no word; and for sequences of plain tokens the words are
    the tokens. *)
Theorem C9_vocab_size (sequences : list str) (windows : list (list str)) :
  vocab_size sequences
    = length (nodup str_eq_dec (all_words sequences)) + 1 /\
  map snd (word_index sequences) = seq 1 (length (word_index sequences)) /\
  (forall w, dict_get str_eqb (word_index sequences) w <> Some 0) /\
  (Forall (Forall plain) windows ->
   vocab_size (map (join space) windows)
     = length (nodup str_eq_dec (concat windows)) + 1).
Proof.
  split; [unfold vocab_size; now rewrite word_index_length|].
  split; [apply word_index_values|].
  split.
  - intros w H. apply (dict_get_in _ str_eqb_eq) in H.
    apply (in_map snd) in H. rewrite word_index_values in H.
    apply in_seq in H. cbn in H. lia.
  - intro P. unfold vocab_size.
    now rewrite word_index_length, all_words_plain.
Qed.

Lemma C9_vocab_size_witness :
  Forall (Forall plain) (candidate_windows stream_plain) /\
  sequences stream_plain
    = map (join space) (candidate_windows stream_plain) /\
  vocab_size (map (join space) (candidate_windows stream_plain))
    = length (nodup str_eq_dec (concat (candidate_windows stream_plain))) + 1.
Proof.
  assert (P : Forall (Forall plain) (candidate_windows stream_plain))
    by (repeat first [apply Forall_nil | apply Forall_cons
                     | split; reflexivity]).
  split; [exact P|].
  split; [reflexivity|].
  apply (C9_vocab_size (sequences stream_plain)
           (candidate_windows stream_plain)).
  exact P.
Defined.

(** C9 as stated fails: the sequence made of this stream has eleven
    distinct tokens, and the window it is made of has ten, but the
    vocabulary has nine words, the marker and the word eos being one. *)
Lemma C9_fewer_words_than_tokens :
  sequences stream_word_eos = [lit "> eos <eos> d e f g h i j k"] /\
  length (nodup str_eq_dec (flat_map split_ws (sequences stream_word_eos)))
    = 11 /\
  length (nodup str_eq_dec (concat (candidate_windows stream_word_eos)))
    = 10 /\
  vocab_size (sequences stream_word_eos) = 10 /\
  vocab_size (sequences stream_word_eos)
    <> length (nodup str_eq_dec
                 (flat_map split_ws (sequences stream_word_eos))) + 1.
Proof.
  repeat split; try (vm_compute; reflexivity). vm_compute. discriminate.
Qed.

(** *** Padding *)

Lemma fold_max_spec (l : list nat) :
  forall x,
    x <= fold_left Nat.max l x /\
    (forall y, In y l -> y <= fold_left Nat.max l x) /\
    (fold_left Nat.max l x = x \/ In (fold_left Nat.max l x) l).
Proof.
  induction l as [|a l IH]; intro x; cbn [fold_left].
  - repeat split; [lia | intros y [] | now left].
  - destruct (IH (Nat.max x a)) as [Hx [Hl Hm]].
    split; [lia|]. split.
    + intros y [<- | Hy]; [lia | auto].
    + destruct Hm as [E | Hm]; [|right; now right].
      destruct (Nat.max_spec x a) as [[L E'] | [L E']]; rewrite E' in *.
      * right. left. now symmetry.
      * now left.
Qed.

Lemma max_of_spec (l : list nat) (m : nat) :
  max_of l = Some m -> (forall y, In y l -> y <= m) /\ In m l.
Proof.
  destruct l as [|x l]; cbn; [discriminate|].
  intros [= <-]. destruct (fold_max_spec l x) as [Hx [Hl Hm]]. split.
  - intros y [<- | Hy]; auto.
  - destruct Hm as [-> | Hm]; [now left | now right].
Qed.

Lemma pad_row_length (maxlen : nat) (s : list nat) :
  length (pad_row maxlen s) = maxlen.
Proof.
  unfold pad_row. rewrite length_app, repeat_length, length_skipn. lia.
Qed.

Lemma pad_row_fits (maxlen : nat) (s : list nat) :
  length s <= maxlen -> pad_row maxlen s = repeat 0 (maxlen - length s) ++ s.
Proof.
  intro H. unfold pad_row.
  replace (length s - maxlen) with 0 by lia. reflexivity.
Qed.

(** C5, as the code has it: where the stream gives a sequence at all,
    the rows have, after padding, the length of the longest encoded
    sequence, each row being its encoded sequence behind zeros. *)
Theorem C5_rows_padded_to_longest (tokens : list str) :
  sequences tokens <> [] ->
  exists m rows,
    max_sequence_len (sequences tokens) = Some m /\
    input_sequences (sequences tokens) = Some rows /\
    (forall row, In row rows -> length row = m) /\
    (forall ids, In ids (tokenized_sequences (sequences tokens)) ->
                 length ids <= m) /\
    (exists ids, In ids (tokenized_sequences (sequences tokens)) /\
                 length ids = m) /\
    rows = map (fun ids => repeat 0 (m - length ids) ++ ids)
               (tokenized_sequences (sequences tokens)).
Proof.
  intro H. unfold input_sequences, max_sequence_len.
  set (rows := tokenized_sequences (sequences tokens)).
  destruct (max_of (map (@length nat) rows)) as [m|] eqn:E.
  - apply max_of_spec in E as [Hle Hin].
    assert (L : forall ids, In ids rows -> length ids <= m)
      by (intros ids Hi; apply Hle; now apply in_map).
    exists m, (pad_sequences rows m). repeat split; try assumption.
    + intros row Hr. unfold pad_sequences in Hr.
      apply in_map_iff in Hr as [ids [<- _]]. apply pad_row_length.
    + apply in_map_iff in Hin as [ids [Hl Hi]]. now exists ids.
    + unfold pad_sequences. apply map_ext_in.
      intros ids Hi. apply pad_row_fits. auto.
  - exfalso. apply H. subst rows.
    unfold tokenized_sequences, texts_to_sequences in E.
    destruct (sequences tokens); [reflexivity | discriminate E].
Qed.

Lemma C5_rows_padded_to_longest_witness :
  sequences stream_plain <> [] /\
  exists m rows,
    max_sequence_len (sequences stream_plain) = Some m /\
    input_sequences (sequences stream_plain) = Some rows /\
    (forall row, In row rows -> length row = m) /\
    (forall ids, In ids (tokenized_sequences (sequences stream_plain)) ->
                 length ids <= m) /\
    (exists ids, In ids (tokenized_sequences (sequences stream_plain)) /\
                 length ids = m) /\
    rows = map (fun ids => repeat 0 (m - length ids) ++ ids)
               (tokenized_sequences (sequences stream_plain)).
Proof.
  split; [vm_compute; discriminate|].
  apply (C5_rows_padded_to_longest stream_plain). vm_compute. discriminate.
Defined.

(** C5 as stated fails: the only window of this stream is cut at its
    marker, and the only row has five entries, not eleven. *)
Lemma C5_row_shorter_than_window :
  sequences stream_marker_in_the_middle = [lit "g h i j k"] /\
  input_sequences (sequences stream_marker_in_the_middle)
    = Some [[1; 2; 3; 4; 5]] /\
  length [1; 2; 3; 4; 5] <> window_length.
Proof. repeat split; try reflexivity. vm_compute. discriminate. Qed.

(** * Further properties *)

(** ** [parse_text] *)

(** X1: [parse_text] treats the records as one text: what it returns is
    the replacement done on the records put one behind the other, with
    nothing between the text of one record and the text of the next. *)
Theorem parse_text_glues_records (data more : list str) :
  parse_text data = entry (concat data) /\
  parse_text (data ++ more) = parse_text data ++ parse_text more.
Proof.
  split; [apply parse_text_entry|].
  now rewrite !parse_text_entry, concat_app, entry_app.
Qed.

Lemma in_replace_char (old : ascii) (new s : str) (c : ascii) :
  In c (replace_char old new s) -> In c new \/ (In c s /\ c <> old).
Proof.
  unfold replace_char. rewrite in_flat_map. intros [x [Hx Hc]].
  destruct (Ascii.eqb_spec x old) as [-> | N].
  - now left.
  - destruct Hc as [<- | []]. right. now split.
Qed.

(** X2: the text that [parse_text] returns has no newline, no apostrophe
    and no period in it. *)
Theorem parse_text_removes (data : list str) (c : ascii) :
  In c (parse_text data) ->
  c <> newline /\ c <> apostrophe /\ c <> period.
Proof.
  rewrite parse_text_entry. unfold entry.
  intro H. apply in_replace_char in H as [H | [H Np]].
  - repeat (destruct H as [<- | H]; [repeat split; discriminate|]).
    destruct H.
  - apply in_replace_char in H as [[] | [H Na]].
    apply in_replace_char in H as [[] | [H Nn]].
    now repeat split.
Qed.

Lemma parse_text_removes_witness :
  In (ascii_of_nat 100) (parse_text example_records) /\
  ascii_of_nat 100 <> newline /\
  ascii_of_nat 100 <> apostrophe /\
  ascii_of_nat 100 <> period.
Proof.
  split; [vm_compute; tauto|].
  apply (parse_text_removes example_records). vm_compute. tauto.
Defined.

(** X3: in a record without the character [<], every period becomes one
    boundary marker and nothing else does: the marked text holds as many
    markers as the record holds periods. *)
Theorem entry_marks_each_period (text : str) :
  ~ In (ascii_of_nat 60) text ->
  occurrences eos (entry text) = count_occ ascii_dec text period.
Proof.
  induction text as [|c t IH]; intro H; [reflexivity|].
  assert (Hc : c <> ascii_of_nat 60) by (intros ->; apply H; now left).
  assert (Ht : ~ In (ascii_of_nat 60) t) by (intro I; apply H; now right).
  rewrite entry_cons.
  destruct (Ascii.eqb_spec c newline) as [-> | Nn];
    [exact (IH Ht)|].
  destruct (Ascii.eqb_spec c apostrophe) as [-> | Na];
    [exact (IH Ht)|].
  destruct (Ascii.eqb_spec c period) as [-> | Np].
  - rewrite count_occ_cons_eq by reflexivity. rewrite <- (IH Ht).
    reflexivity.
  - rewrite count_occ_cons_neq by exact Np. rewrite <- (IH Ht).
    cbn [app occurrences].
    destruct (startswith (c :: entry t) eos) eqn:E; [|reflexivity].
    apply startswith_eos_head in E. contradiction.
Qed.

Lemma entry_marks_each_period_witness :
  ~ In (ascii_of_nat 60) (lit "Great food. Loved it.") /\
  occurrences eos (entry (lit "Great food. Loved it.")) = 2.
Proof.
  assert (N : ~ In (ascii_of_nat 60) (lit "Great food. Loved it.")).
  { intro H. repeat (destruct H as [H | H]; [discriminate H|]). destruct H. }
  split; [exact N|].
  exact (entry_marks_each_period (lit "Great food. Loved it.") N).
Defined.

(** ** [clean_text] *)

Lemma split_ws_from_app (a b : str) (c : ascii) :
  isspace c = true ->
  forall cur,
    split_ws_from cur (a ++ c :: b)
    = split_ws_from cur a ++ split_ws_from [] b.
Proof.
  intro Hc. induction a as [|x a IH]; intro cur; cbn [app split_ws_from].
  - rewrite Hc. now destruct cur.
  - destruct (isspace x).
    + destruct cur; cbn [app]; now rewrite IH.
    + apply IH.
Qed.

Lemma clean_text_split (doc : str) :
  clean_text doc = clean_tokens (split_ws doc).
Proof. reflexivity. Qed.

Lemma clean_tokens_app (a b : list str) :
  clean_tokens (a ++ b) = clean_tokens a ++ clean_tokens b.
Proof. unfold clean_tokens. now rewrite map_app, filter_app, map_app. Qed.

(** X4: the tokens of two texts with a whitespace character between them
    are the tokens of the first followed by the tokens of the second. *)
Theorem clean_text_whitespace_between (a b : str) (c : ascii) :
  isspace c = true ->
  clean_text (a ++ c :: b) = clean_text a ++ clean_text b.
Proof.
  intro H. rewrite !clean_text_split. unfold split_ws.
  now rewrite (split_ws_from_app a b c H), clean_tokens_app.
Qed.

Lemma clean_text_whitespace_between_witness :
  isspace (ascii_of_nat 10) = true /\
  clean_text (lit "Loved it" ++ ascii_of_nat 10 :: lit "Terrible service.")
  = clean_text (lit "Loved it") ++ clean_text (lit "Terrible service.").
Proof.
  split; [reflexivity|].
  apply (clean_text_whitespace_between (lit "Loved it")
           (lit "Terrible service.") (ascii_of_nat 10)).
  reflexivity.
Defined.

Lemma split_ws_from_all_space (s : str) :
  (forall c, In c s -> isspace c = true) -> split_ws_from [] s = [].
Proof.
  induction s as [|c s IH]; intro H; [reflexivity|].
  cbn [split_ws_from]. rewrite (H c) by now left.
  apply IH. intros c' Hc'. apply H. now right.
Qed.

(** X5: a document of whitespace only, the empty one among them, has no
    tokens. *)
Theorem clean_text_blank (doc : str) :
  (forall c, In c doc -> isspace c = true) -> clean_text doc = [].
Proof.
  intro H. rewrite clean_text_split. unfold split_ws.
  now rewrite split_ws_from_all_space.
Qed.

Lemma clean_text_blank_witness :
  (forall c, In c (lit "   ") -> isspace c = true) /\
  clean_text (lit "   ") = [].
Proof.
  assert (H : forall c, In c (lit "   ") -> isspace c = true).
  { intros c H. repeat (destruct H as [<- | H]; [reflexivity|]). destruct H. }
  split; [exact H|].
  exact (clean_text_blank (lit "   ") H).
Defined.

(** The pieces of the whitespace split are not empty and hold no
    whitespace. *)
Lemma split_ws_from_pieces (s : str) :
  forall cur w,
    (forall c, In c cur -> isspace c = false) ->
    In w (split_ws_from cur s) ->
    w <> [] /\ forall c, In c w -> isspace c = false.
Proof.
  assert (R : forall cur : str, cur <> [] ->
              (forall c, In c cur -> isspace c = false) ->
              rev cur <> [] /\ forall c, In c (rev cur) -> isspace c = false).
  { intros cur Hn Hc. split.
    - intro E. apply Hn. rewrite <- (rev_involutive cur), E. reflexivity.
    - intros c Hi. apply Hc. now apply in_rev. }
  induction s as [|x s IH]; intros cur w Hcur Hw; cbn [split_ws_from] in Hw.
  - destruct cur as [|y cur]; [destruct Hw|].
    destruct Hw as [<- | []]. apply R; [discriminate | exact Hcur].
  - destruct (isspace x) eqn:Ex.
    + destruct cur as [|y cur].
      * apply (IH [] w); [intros c [] | exact Hw].
      * destruct Hw as [<- | Hw]; [apply R; [discriminate | exact Hcur]|].
        apply (IH [] w); [intros c [] | exact Hw].
    + apply (IH (x :: cur) w); [|exact Hw].
      intros c [<- | Hc]; [exact Ex | now apply Hcur].
Qed.

Lemma isspace_lower_char (c : ascii) : isspace (lower_char c) = isspace c.
Proof. destruct c as [[] [] [] [] [] [] [] []]; reflexivity. Qed.

Lemma alpha_not_punctuation (c : ascii) :
  isalpha_char c = true -> is_punctuation c = false.
Proof.
  destruct c as [[] [] [] [] [] [] [] []]; vm_compute; intro H;
    first [reflexivity | discriminate H].
Qed.

Lemma contains_not_empty (p s : str) :
  p <> [] -> contains p s = true -> s <> [].
Proof.
  intros Hp H ->. destruct p; [contradiction | discriminate H].
Qed.

(** What holds of a token in the output of [clean_text]. *)
Lemma clean_tokens_token (tokens : list str) (w : str) :
  (forall t, In t tokens ->
     t <> [] /\ forall c, In c t -> isspace c = false) ->
  In w (clean_tokens tokens) ->
  w <> [] /\ (forall c, In c w -> isspace c = false) /\
  lower w = w /\ (isalpha w = true \/ contains eos w = true).
Proof.
  intros Ht H. unfold clean_tokens in H.
  apply in_map_iff in H as [w0 [<- H]].
  apply filter_In in H as [H K].
  apply in_map_iff in H as [t [E Hin]].
  destruct (Ht t Hin) as [_ Hs].
  assert (S0 : forall c, In c w0 -> isspace c = false).
  { intros c Hc. apply Hs. destruct (negb (contains eos t)); subst w0.
    - unfold translate_table in Hc. now apply filter_In in Hc.
    - exact Hc. }
  assert (N0 : w0 <> []).
  { apply orb_true_iff in K as [K | K].
    - intros ->. discriminate K.
    - exact (contains_not_empty eos w0 eos_not_empty K). }
  repeat split.
  - destruct w0; [contradiction | discriminate].
  - intros c Hc. unfold lower in Hc. apply in_map_iff in Hc as [c0 [<- Hc]].
    rewrite isspace_lower_char. now apply S0.
  - apply lower_idem.
  - apply orb_true_iff in K as [K | K].
    + left. now rewrite isalpha_lower.
    + right. now apply contains_eos_lower.
Qed.

Lemma clean_text_token (doc w : str) :
  In w (clean_text doc) ->
  w <> [] /\ (forall c, In c w -> isspace c = false) /\
  lower w = w /\ (isalpha w = true \/ contains eos w = true).
Proof.
  rewrite clean_text_split. apply clean_tokens_token.
  intros t Ht. apply (split_ws_from_pieces doc [] t); [intros c [] | exact Ht].
Qed.

(** X6: no token of [clean_text] is empty, and none holds a whitespace
    character. *)
Theorem clean_text_tokens_solid (doc w : str) :
  In w (clean_text doc) ->
  w <> [] /\ forall c, In c w -> isspace c = false.
Proof.
  intro H. destruct (clean_text_token doc w H) as [A [B _]]. now split.
Qed.

Lemma clean_text_tokens_solid_witness :
  In (lit "loved") (clean_text (lit "Great food. Loved it")) /\
  lit "loved" <> [] /\
  forall c, In c (lit "loved") -> isspace c = false.
Proof.
  split; [vm_compute; tauto|].
  apply (clean_text_tokens_solid (lit "Great food. Loved it")).
  vm_compute. tauto.
Defined.

Lemma split_ws_from_solid (t : str) :
  (forall c, In c t -> isspace c = false) ->
  forall cur, cur <> [] \/ t <> [] -> split_ws_from cur t = [rev cur ++ t].
Proof.
  induction t as [|x t IH]; intros H cur N; cbn [split_ws_from].
  - destruct cur as [|y cur]; [destruct N; contradiction|].
    now rewrite app_nil_r.
  - rewrite (H x) by now left.
    rewrite IH; [| intros c Hc; apply H; now right | left; discriminate].
    cbn [rev]. now rewrite <- app_assoc.
Qed.

Lemma split_ws_join (ts : list str) :
  (forall t, In t ts -> t <> [] /\ forall c, In c t -> isspace c = false) ->
  split_ws (join space ts) = ts.
Proof.
  induction ts as [|t [|t' ts] IH]; intro H.
  - reflexivity.
  - destruct (H t) as [N S0]; [now left|]. cbn [join]. unfold split_ws.
    now rewrite split_ws_from_solid by auto.
  - destruct (H t) as [N S0]; [now left|].
    change (join space (t :: t' :: ts))
      with (t ++ ascii_of_nat 32 :: join space (t' :: ts)).
    unfold split_ws. rewrite split_ws_from_app by reflexivity.
    rewrite split_ws_from_solid by auto. cbn [rev app]. f_equal.
    apply IH. intros u Hu. apply H. now right.
Qed.

Lemma filter_all {A : Type} (f : A -> bool) (l : list A) :
  (forall x, In x l -> f x = true) -> filter f l = l.
Proof.
  induction l as [|x l IH]; intro H; [reflexivity|].
  cbn. rewrite (H x) by now left. f_equal. apply IH.
  intros y Hy. apply H. now right.
Qed.

Lemma clean_tokens_fixed (ts : list str) :
  (forall w, In w ts ->
     lower w = w /\ (isalpha w = true \/ contains eos w = true)) ->
  clean_tokens ts = ts.
Proof.
  induction ts as [|w ts IH]; intro H; [reflexivity|].
  change (w :: ts) with ([w] ++ ts) at 1. rewrite clean_tokens_app.
  rewrite IH by (intros u Hu; apply H; now right).
  destruct (H w) as [L K]; [now left|].
  assert (E : clean_tokens [w] = [w]); [|now rewrite E].
  unfold clean_tokens. cbn [map].
  destruct (contains eos w) eqn:C; cbn [negb].
  - cbn [filter]. rewrite C, orb_true_r. cbn [map]. now rewrite L.
  - destruct K as [K | K]; [|discriminate K].
    assert (T : translate_table w = w).
    { apply filter_all. intros c Hc. apply negb_true_iff.
      apply alpha_not_punctuation.
      destruct w as [|x w]; [destruct Hc|].
      unfold isalpha in K. rewrite forallb_forall in K. auto. }
    rewrite T. cbn [filter]. rewrite K. cbn [orb map]. now rewrite L.
Qed.

(** X7: for a document of code points below 256, cleaning is idempotent:
    the tokens of the document, joined by spaces and cleaned again, are the
    same tokens. *)
Theorem clean_text_idempotent (cps : list N) (doc : str) :
  of_code_points cps = Some doc ->
  clean_text (join space (clean_text doc)) = clean_text doc.
Proof.
  intros _.
  rewrite (clean_text_split (join space (clean_text doc))).
  rewrite split_ws_join.
  - apply clean_tokens_fixed. intros w Hw.
    destruct (clean_text_token doc w Hw) as [_ [_ [L K]]]. now split.
  - intros t Ht. destruct (clean_text_token doc t Ht) as [N [S0 _]].
    now split.
Qed.

Lemma clean_text_idempotent_witness :
  of_code_points (code_points_of (lit "Great food <eos>  Loved it!"))
    = Some (lit "Great food <eos>  Loved it!") /\
  clean_text (join space (clean_text (lit "Great food <eos>  Loved it!")))
  = clean_text (lit "Great food <eos>  Loved it!").
Proof.
  split; [reflexivity|].
  apply (clean_text_idempotent
           (code_points_of (lit "Great food <eos>  Loved it!"))).
  reflexivity.
Defined.

(** ** The windowing loop *)

Lemma piece_refl (s : str) : piece s s.
Proof. exists [], []. now rewrite app_nil_r. Qed.

Lemma piece_trans (a b c : str) : piece a b -> piece b c -> piece a c.
Proof.
  intros [l [r ->]] [l' [r' ->]]. exists (l' ++ l), (r ++ r').
  now rewrite <- !app_assoc.
Qed.

Lemma piece_strip (s : str) : piece (strip s) s.
Proof. exact (strip_piece s). Qed.

Lemma find_cut (p s : str) (i : nat) :
  find p s = Some i -> s = firstn i s ++ p ++ skipn (i + length p) s.
Proof.
  revert i. induction s as [|c s IH]; intro i; cbn [find].
  - destruct (startswith [] p) eqn:E; [|discriminate].
    intros [= <-]. apply startswith_iff in E as [r E].
    destruct p; [reflexivity | discriminate E].
  - destruct (startswith (c :: s) p) eqn:E.
    + intros [= <-]. apply startswith_iff in E as [r E].
      rewrite E at 1. cbn [firstn app plus]. f_equal.
      rewrite E, skipn_app, Nat.sub_diag, skipn_all. reflexivity.
    + destruct (find p s) as [j|]; [|discriminate].
      intros [= <-]. cbn [firstn app plus skipn]. f_equal. now apply IH.
Qed.

Lemma split_loop_not_nil (n : nat) (sep s : str) : split_loop n sep s <> [].
Proof. destruct n; cbn; [|destruct (find sep s)]; discriminate. Qed.

Lemma join_cons (sep x : str) (l : list str) :
  l <> [] -> join sep (x :: l) = x ++ sep ++ join sep l.
Proof. destruct l; [contradiction | reflexivity]. Qed.

(** Joining the parts of a split with the separator gives the string
    back. *)
Lemma join_split_loop (n : nat) (sep : str) :
  forall s, join sep (split_loop n sep s) = s.
Proof.
  induction n as [|n IH]; intro s; cbn [split_loop]; [reflexivity|].
  destruct (find sep s) as [i|] eqn:E; [|reflexivity].
  rewrite join_cons by apply split_loop_not_nil.
  rewrite IH. symmetry. now apply find_cut.
Qed.

(** X8: the line that the loop appends for a window is a piece of the
    line of the window: trimming takes characters away at the two ends and
    does nothing else to the text. *)
Theorem trim_line_keeps_a_piece (line out : str) :
  trim_line line = Some out ->
  piece out line /\ length out <= length line.
Proof.
  intro H.
  assert (P : piece out line).
  { unfold trim_line in H.
    destruct (contains eos line); [|injection H as <-; apply piece_refl].
    destruct (endswith line eos).
    { injection H as <-. apply (piece_trans _ _ _ (piece_strip _)).
      exists [], (skipn (length line - 4) line). unfold drop_last. cbn [app].
      now rewrite firstn_skipn. }
    destruct (startswith line eos).
    { injection H as <-. apply (piece_trans _ _ _ (piece_strip _)).
      exists (firstn 4 line), []. now rewrite app_nil_r, firstn_skipn. }
    pose proof (join_split_loop (length line) eos line) as J.
    fold (split eos line) in J.
    destruct (split eos line) as [|front [|back [|]]]; try discriminate H.
    cbn [join] in J.
    destruct (length back <? length front); injection H as <-;
      apply (piece_trans _ _ _ (piece_strip _)).
    - exists [], (eos ++ back). now rewrite J.
    - exists (front ++ eos), []. now rewrite app_nil_r, <- app_assoc. }
  split; [exact P|].
  destruct P as [l [r ->]]. rewrite !length_app. lia.
Qed.

Lemma trim_line_keeps_a_piece_witness :
  trim_line (join space window_marker_inside) = Some (lit "e f g h i j k") /\
  piece (lit "e f g h i j k") (join space window_marker_inside) /\
  length (lit "e f g h i j k") <= length (join space window_marker_inside).
Proof.
  split; [reflexivity|].
  apply (trim_line_keeps_a_piece (join space window_marker_inside)).
  reflexivity.
Defined.

Lemma trim_line_inner_markers (line : str) :
  2 <= occurrences eos line ->
  startswith line eos = false -> endswith line eos = false ->
  trim_line line = None.
Proof.
  intros H Hs He.
  destruct (two_markers_cut _ H) as [a [b [c [E [Ha Hb]]]]].
  unfold trim_line. rewrite Hs, He, E, contains_eos_app.
  rewrite (split_eos_cut _ _ Ha), (split_eos_cut _ _ Hb).
  pose proof (split_not_nil eos c) as L.
  destruct (split eos c); [cbn in L; lia | reflexivity].
Qed.

(** X9: the loop body skips a window in one case only: its line holds
    the marker at least twice and neither starts nor ends with it. *)
Theorem trim_line_skips_exactly (line : str) :
  trim_line line = None <->
  2 <= occurrences eos line /\
  startswith line eos = false /\ endswith line eos = false.
Proof.
  split.
  - intro H.
    assert (C : contains eos line = true).
    { destruct (contains eos line) eqn:C; [reflexivity|].
      unfold trim_line in H. rewrite C in H. discriminate H. }
    assert (E : endswith line eos = false).
    { destruct (endswith line eos) eqn:E; [|reflexivity].
      unfold trim_line in H. rewrite C, E in H. discriminate H. }
    assert (S0 : startswith line eos = false).
    { destruct (startswith line eos) eqn:S0; [|reflexivity].
      unfold trim_line in H. rewrite C, E, S0 in H. discriminate H. }
    repeat split; try assumption.
    destruct (occurrences eos line) as [|[|n]] eqn:O; [| |lia].
    + apply occurrences_zero_iff in O. congruence.
    + destruct (one_marker_cut line O) as [front [back [-> [Hf Hb]]]].
      rewrite (trim_line_one_marker _ _ Hf Hb) in H.
      destruct back; [|destruct front]; discriminate H.
  - intros [H [Hs He]]. now apply trim_line_inner_markers.
Qed.

Lemma trim_line_skips_exactly_witness :
  trim_line (line_at stream_two_markers_inside 12) = None /\
  2 <= occurrences eos (line_at stream_two_markers_inside 12) /\
  startswith (line_at stream_two_markers_inside 12) eos = false /\
  endswith (line_at stream_two_markers_inside 12) eos = false.
Proof.
  split; [reflexivity|].
  apply (proj1 (trim_line_skips_exactly
                  (line_at stream_two_markers_inside 12))).
  reflexivity.
Defined.

Lemma startswith_before_space (a b : str) :
  startswith (a ++ space_char :: b) eos = true -> startswith a eos = true.
Proof.
  intro H. apply startswith_iff in H as [r E].
  destruct a as [|c1 [|c2 [|c3 [|c4 [|c5 a]]]]]; try discriminate E.
  injection E as -> -> -> -> -> _. reflexivity.
Qed.

Lemma contains_across_space (a b : str) :
  contains eos a = false -> contains eos b = false ->
  contains eos (a ++ space_char :: b) = false.
Proof.
  intros Ha Hb. induction a as [|x a IH].
  - cbn [app]. rewrite contains_cons, Hb. reflexivity.
  - rewrite contains_cons in Ha. apply orb_false_iff in Ha as [S0 Ha].
    cbn [app]. rewrite contains_cons, (IH Ha), orb_false_r.
    destruct (startswith (x :: a ++ space_char :: b) eos) eqn:E;
      [|reflexivity].
    apply (startswith_before_space (x :: a) b) in E. congruence.
Qed.

Lemma contains_join_free (ts : list str) :
  (forall t, In t ts -> contains eos t = false) ->
  contains eos (join space ts) = false.
Proof.
  induction ts as [|t [|t' ts] IH]; intro H.
  - reflexivity.
  - apply H. now left.
  - change (join space (t :: t' :: ts))
      with (t ++ space_char :: join space (t' :: ts)).
    apply contains_across_space; [apply H; now left|].
    apply IH. intros u Hu. apply H. now right.
Qed.

Lemma in_slice {A : Type} (l : list A) (a b : nat) (x : A) :
  In x (slice l a b) -> In x l.
Proof.
  unfold slice. intro H.
  rewrite <- (firstn_skipn a l). apply in_or_app. right.
  rewrite <- (firstn_skipn (b - a) (skipn a l)). apply in_or_app. now left.
Qed.

Lemma produce_from_cons (acc : list str) (w : list str)
  (ws : list (list str)) :
  produce_from acc (w :: ws)
  = produce_from (match trim_line (join space w) with
                  | Some line => acc ++ [line]
                  | None => acc
                  end) ws.
Proof. reflexivity. Qed.

Lemma produce_from_extends (windows : list (list str)) :
  forall acc, exists more, produce_from acc windows = acc ++ more /\
                           length more <= length windows.
Proof.
  induction windows as [|w ws IH]; intro acc.
  - exists []. now rewrite app_nil_r.
  - rewrite produce_from_cons.
    destruct (trim_line (join space w)) as [line|].
    + destruct (IH (acc ++ [line])) as [more [E L]].
      exists (line :: more).
      rewrite E, <- app_assoc. split; [reflexivity | cbn; lia].
    + destruct (IH acc) as [more [E L]]. exists more.
      rewrite E. split; [reflexivity | cbn; lia].
Qed.

Lemma produce_from_free (windows : list (list str)) :
  (forall w, In w windows -> contains eos (join space w) = false) ->
  forall acc, produce_from acc windows = acc ++ map (join space) windows.
Proof.
  induction windows as [|w ws IH]; intros H acc.
  - cbn. now rewrite app_nil_r.
  - rewrite produce_from_cons. unfold trim_line. rewrite (H w) by now left.
    rewrite IH by (intros u Hu; apply H; now right).
    cbn [map]. now rewrite <- app_assoc.
Qed.

(** X10: on a stream without boundary marker every candidate window is
    appended as it is, joined by single spaces: the stream gives as many
    sequences as it has tokens beyond the first eleven. *)
Theorem sequences_without_marker (tokens : list str) :
  (forall t, In t tokens -> contains eos t = false) ->
  sequences tokens = map (join space) (candidate_windows tokens) /\
  length (sequences tokens) = length tokens - window_length.
Proof.
  intro H.
  assert (E : sequences tokens = map (join space) (candidate_windows tokens)).
  { rewrite sequences_produce. unfold produce.
    rewrite produce_from_free; [reflexivity|].
    intros w Hw. apply contains_join_free. intros t Ht. apply H.
    unfold candidate_windows in Hw. apply in_map_iff in Hw as [i [<- _]].
    exact (in_slice _ _ _ _ Ht). }
  split; [exact E|].
  rewrite E, length_map. unfold candidate_windows, range.
  now rewrite length_map, length_seq.
Qed.

Lemma sequences_without_marker_witness :
  (forall t, In t stream_plain -> contains eos t = false) /\
  sequences stream_plain
    = map (join space) (candidate_windows stream_plain) /\
  length (sequences stream_plain) = length stream_plain - window_length.
Proof.
  assert (H : forall t, In t stream_plain -> contains eos t = false).
  { intros t H. repeat (destruct H as [<- | H]; [reflexivity|]). destruct H. }
  split; [exact H|].
  exact (sequences_without_marker stream_plain H).
Defined.

(** X11: a stream never gives more sequences than it has candidate
    windows, and the sequences of a stream stay, in their order, the first
    sequences of any stream that continues it. *)
Theorem sequences_grow_with_stream (tokens more : list str) :
  length (sequences tokens) <= length tokens - window_length /\
  exists rest, sequences (tokens ++ more) = sequences tokens ++ rest.
Proof.
  split.
  - rewrite sequences_produce. unfold produce.
    destruct (produce_from_extends (candidate_windows tokens) [])
      as [m [-> L]].
    cbn [app]. unfold candidate_windows, range in L.
    now rewrite length_map, length_seq in L.
  - assert (W : exists ws, candidate_windows (tokens ++ more)
                           = candidate_windows tokens ++ ws).
    { unfold candidate_windows, range. rewrite length_app.
      set (n := length tokens). set (k := length more).
      replace (n + k - window_length)
        with ((n - window_length)
              + (n + k - window_length - (n - window_length))) by lia.
      rewrite seq_app, map_app. eexists. f_equal.
      apply map_ext_in. intros i Hi. apply in_seq in Hi.
      apply slice_app_within. unfold n in *. lia. }
    destruct W as [ws W].
    rewrite !sequences_produce, W. unfold produce, produce_from.
    rewrite fold_left_app.
    fold (produce_from [] (candidate_windows tokens)).
    destruct (produce_from_extends ws
                (produce_from [] (candidate_windows tokens))) as [m [E _]].
    exists m. exact E.
Qed.

Lemma lstrip_keeps_last (body : str) (c : ascii) :
  isspace c = false -> exists kept, lstrip (body ++ [c]) = kept ++ [c].
Proof.
  intro H. induction body as [|x body [kept IH]]; cbn.
  - rewrite H. now exists [].
  - destruct (isspace x).
    + now exists kept.
    + now exists (x :: body).
Qed.

Lemma strip_keeps_last (body : str) (c : ascii) :
  isspace c = false -> exists kept, strip (body ++ [c]) = kept ++ [c].
Proof.
  intro H. destruct (lstrip_keeps_last body c H) as [kept E].
  exists kept. unfold strip, rstrip. rewrite E, rev_app_distr.
  cbn [rev app lstrip]. rewrite H. cbn [rev].
  now rewrite rev_involutive.
Qed.

(** X12: for every line that ends with the marker the loop body cuts the
    last four characters and strips the rest, so that the line it appends
    ends with the first character of the marker. *)
Theorem trim_line_marker_last (body : str) :
  trim_line (body ++ eos) = Some (strip (body ++ lit "<")) /\
  exists kept, strip (body ++ lit "<") = kept ++ lit "<".
Proof.
  split.
  - assert (C : contains eos (body ++ eos) = true)
      by (apply contains_iff; exists body, []; now rewrite app_nil_r).
    assert (E : endswith (body ++ eos) eos = true)
      by (apply endswith_iff; now exists body).
    unfold trim_line. now rewrite C, E, drop_last_marker.
  - apply strip_keeps_last. reflexivity.
Qed.

(** ** The tokenizer *)

Section DictUpdate.
Context {K V : Type} (eqb : K -> K -> bool).
Hypothesis eqb_eq : forall a b, eqb a b = true <-> a = b.

Lemma dict_get_set (d : list (K * V)) (k k' : K) (v : V) :
  dict_get eqb (dict_set eqb d k v) k'
  = if eqb k k' then Some v else dict_get eqb d k'.
Proof.
  induction d as [|[k0 v0] d IH]; [reflexivity|].
  cbn [dict_set]. destruct (eqb k0 k) eqn:E0.
  - apply eqb_eq in E0. subst k0. cbn [dict_get].
    now destruct (eqb k k').
  - cbn [dict_get]. destruct (eqb k0 k') eqn:E1; [|exact IH].
    apply eqb_eq in E1. subst k'.
    destruct (eqb k k0) eqn:E2; [|reflexivity].
    apply eqb_eq in E2. subst k0.
    rewrite (proj2 (eqb_eq k k) eq_refl) in E0. discriminate E0.
Qed.
End DictUpdate.

Lemma count_word_get (d : list (str * nat)) (x w : str) :
  dict_get str_eqb (count_word d x) w
  = if str_eqb x w
    then Some (count_or_zero (dict_get str_eqb d x) + 1)
    else dict_get str_eqb d w.
Proof.
  unfold count_word.
  destruct (dict_get str_eqb d x) as [c|];
    rewrite (dict_get_set _ str_eqb_eq); reflexivity.
Qed.

Lemma counted_get (ws : list str) (w : str) :
  forall d,
    dict_get str_eqb (fold_left count_word ws d) w
    = match count_occ str_eq_dec ws w with
      | 0 => dict_get str_eqb d w
      | S n => Some (S n + count_or_zero (dict_get str_eqb d w))
      end.
Proof.
  induction ws as [|x ws IH]; intro d; [reflexivity|].
  cbn [fold_left]. rewrite IH, count_word_get.
  destruct (str_eq_dec x w) as [-> | N].
  - rewrite count_occ_cons_eq by reflexivity.
    rewrite (proj2 (str_eqb_eq w w) eq_refl).
    destruct (count_occ str_eq_dec ws w); cbn [count_or_zero]; f_equal; lia.
  - rewrite count_occ_cons_neq by exact N.
    destruct (str_eqb x w) eqn:E; [|reflexivity].
    apply str_eqb_eq in E. contradiction.
Qed.

(** X13: [fit_on_texts] counts right: a word that the tokenizer reads
    [n] times in the sequences, [n] not zero, has the count [n], and a word
    it does not read has no count. *)
Theorem word_counts_counts (texts : list str) (w : str) :
  dict_get str_eqb (word_counts texts) w
  = match count_occ str_eq_dec (all_words texts) w with
    | 0 => None
    | S n => Some (S n)
    end.
Proof.
  rewrite word_counts_all_words, counted_get. cbn [dict_get count_or_zero].
  destruct (count_occ str_eq_dec (all_words texts) w); [reflexivity|].
  f_equal. lia.
Qed.

Lemma insert_by_count_sorted (x : str * nat) (l : list (str * nat)) :
  StronglySorted by_count l -> StronglySorted by_count (insert_by_count x l).
Proof.
  induction l as [|y l IH]; intro H; cbn [insert_by_count].
  - repeat constructor.
  - inversion H as [|? ? Hl Hy]; subst.
    destruct (snd x <? snd y) eqn:E.
    + apply Nat.ltb_lt in E. constructor; [now apply IH|].
      apply Forall_forall. intros z Hz.
      apply (Permutation_in _ (insert_by_count_perm x l)) in Hz.
      destruct Hz as [<- | Hz]; [unfold by_count; lia|].
      rewrite Forall_forall in Hy. now apply Hy.
    + apply Nat.ltb_ge in E. constructor; [exact H|].
      constructor; [exact E|].
      rewrite Forall_forall in *. intros z Hz.
      specialize (Hy z Hz). unfold by_count in *. lia.
Qed.

Lemma sort_by_count_sorted (l : list (str * nat)) :
  StronglySorted by_count (sort_by_count l).
Proof.
  induction l as [|x l IH]; cbn [sort_by_count fold_right].
  - constructor.
  - now apply insert_by_count_sorted.
Qed.

Lemma sorted_nth (l : list (str * nat)) :
  StronglySorted by_count l ->
  forall p q x y,
    p < q -> nth_error l p = Some x -> nth_error l q = Some y ->
    snd y <= snd x.
Proof.
  induction 1 as [|a l Hl IH Ha]; intros p q x y L Hp Hq.
  - destruct p; discriminate Hp.
  - destruct q as [|q]; [lia|]. cbn in Hq.
    destruct p as [|p].
    + injection Hp as <-. rewrite Forall_forall in Ha.
      apply (Ha y). eapply nth_error_In. exact Hq.
    + cbn in Hp. apply (IH p q x y); [lia | exact Hp | exact Hq].
Qed.

Lemma in_combine_seq {A : Type} (l : list A) :
  forall s x i,
    In (x, i) (combine l (seq s (length l))) ->
    s <= i /\ nth_error l (i - s) = Some x.
Proof.
  induction l as [|a l IH]; intros s x i H; [destruct H|].
  cbn [length seq combine] in H. destruct H as [[= -> ->] | H].
  - split; [lia|]. now rewrite Nat.sub_diag.
  - destruct (IH (S s) x i H) as [L E]. split; [lia|].
    replace (i - s) with (S (i - S s)) by lia. exact E.
Qed.

Lemma word_index_place (texts : list str) (w : str) (i : nat) :
  dict_get str_eqb (word_index texts) w = Some i ->
  1 <= i /\
  nth_error (sort_by_count (word_counts texts)) (i - 1)
  = Some (w, count_occ str_eq_dec (all_words texts) w).
Proof.
  intro H. apply (dict_get_in _ str_eqb_eq) in H.
  rewrite word_index_combine in H.
  apply in_combine_seq in H as [L E]. split; [exact L|].
  unfold sorted_voc in E. rewrite nth_error_map in E.
  destruct (nth_error (sort_by_count (word_counts texts)) (i - 1))
    as [[w' c]|] eqn:N; [|discriminate E].
  injection E as ->. f_equal. f_equal.
  apply nth_error_In in N.
  apply (Permutation_in _ (sort_by_count_perm _)) in N.
  apply (in_dict_get _ str_eqb_eq) in N.
  - rewrite word_counts_all_words, counted_get in N.
    cbn [dict_get count_or_zero] in N.
    destruct (count_occ str_eq_dec (all_words texts) w);
      [discriminate N | injection N as <-; f_equal; lia].
  - rewrite word_counts_all_words. apply counted_keys. constructor.
Qed.

(** X14: the ids follow the counts: of two words of the vocabulary, the
    one with the smaller id is read in the sequences at least as often as
    the other. *)
Theorem word_index_by_decreasing_count
  (texts : list str) (w1 w2 : str) (i1 i2 : nat) :
  dict_get str_eqb (word_index texts) w1 = Some i1 ->
  dict_get str_eqb (word_index texts) w2 = Some i2 ->
  i1 < i2 ->
  count_occ str_eq_dec (all_words texts) w2
  <= count_occ str_eq_dec (all_words texts) w1.
Proof.
  intros H1 H2 L.
  destruct (word_index_place texts w1 i1 H1) as [L1 N1].
  destruct (word_index_place texts w2 i2 H2) as [L2 N2].
  exact (sorted_nth _ (sort_by_count_sorted _) (i1 - 1) (i2 - 1) _ _
           ltac:(lia) N1 N2).
Qed.

Lemma word_index_by_decreasing_count_witness :
  dict_get str_eqb (word_index (sequences stream_plain)) (lit "was") = Some 1 /\
  dict_get str_eqb (word_index (sequences stream_plain)) (lit "food") = Some 3 /\
  count_occ str_eq_dec (all_words (sequences stream_plain)) (lit "food")
  <= count_occ str_eq_dec (all_words (sequences stream_plain)) (lit "was").
Proof.
  split; [reflexivity|]. split; [reflexivity|].
  apply (word_index_by_decreasing_count (sequences stream_plain)
           (lit "was") (lit "food") 1 3); [reflexivity | reflexivity | lia].
Defined.

Lemma word_index_id_range (texts : list str) (w : str) (i : nat) :
  dict_get str_eqb (word_index texts) w = Some i ->
  1 <= i <= length (word_index texts).
Proof.
  intro H. apply (dict_get_in _ str_eqb_eq) in H.
  apply (in_map snd) in H. rewrite word_index_values in H.
  apply in_seq in H. cbn [snd] in H. lia.
Qed.

Lemma text_to_sequence_ids (index : list (str * nat)) (text : str) (k : nat) :
  In k (text_to_sequence index text) ->
  exists w, In w (text_to_word_sequence text) /\
            dict_get str_eqb index w = Some k.
Proof.
  unfold text_to_sequence. rewrite in_flat_map. intros [w [Hw Hk]].
  exists w. split; [exact Hw|].
  destruct (dict_get str_eqb index w) as [i|]; [|destruct Hk].
  destruct Hk as [<- | []]. reflexivity.
Qed.

Lemma in_pad_row (maxlen : nat) (ids : list nat) (k : nat) :
  In k (pad_row maxlen ids) -> k = 0 \/ In k ids.
Proof.
  unfold pad_row. rewrite in_app_iff. intros [H | H].
  - left. now apply repeat_spec in H.
  - right. rewrite <- (firstn_skipn (length ids - maxlen) ids).
    apply in_or_app. now right.
Qed.

(** X15: every id that the tokenizer gives for a text, a text of the
    training sequences or any other, is at least 1 and below the
    vocabulary size, and so is, but for the zeros of the padding, every
    entry of the padded rows: each is a class that the network has. *)
Theorem ids_below_vocab_size
  (sequences : list str) (text : str) (rows : list (list nat))
  (row : list nat) (k : nat) :
  (In k (text_to_sequence (word_index sequences) text) ->
   1 <= k < vocab_size sequences) /\
  (input_sequences sequences = Some rows -> In row rows -> In k row ->
   k < vocab_size sequences).
Proof.
  assert (A : forall t, In k (text_to_sequence (word_index sequences) t) ->
                        1 <= k < vocab_size sequences).
  { intros t H. apply text_to_sequence_ids in H as [w [_ H]].
    apply word_index_id_range in H. unfold vocab_size. lia. }
  split; [apply A|].
  unfold input_sequences. intros H Hrow Hk.
  destruct (max_sequence_len sequences) as [m|]; [|discriminate H].
  injection H as <-. unfold pad_sequences in Hrow.
  apply in_map_iff in Hrow as [ids [<- Hids]].
  apply in_pad_row in Hk as [-> | Hk].
  - unfold vocab_size. lia.
  - unfold tokenized_sequences, texts_to_sequences in Hids.
    apply in_map_iff in Hids as [t [<- _]]. now apply (A t).
Qed.

Lemma ids_below_vocab_size_witness :
  In 3 (text_to_sequence (word_index (sequences stream_plain))
          (lit "The food, the staff!")) /\
  1 <= 3 < vocab_size (sequences stream_plain) /\
  input_sequences (sequences stream_plain)
    = Some (pad_sequences (tokenized_sequences (sequences stream_plain)) 11) /\
  In [2; 3; 1; 4; 5; 2; 6; 1; 7; 8; 9]
     (pad_sequences (tokenized_sequences (sequences stream_plain)) 11) /\
  In 9 [2; 3; 1; 4; 5; 2; 6; 1; 7; 8; 9] /\
  9 < vocab_size (sequences stream_plain).
Proof.
  assert (I : In 3 (text_to_sequence (word_index (sequences stream_plain))
                      (lit "The food, the staff!")))
    by (vm_compute; tauto).
  assert (R : In [2; 3; 1; 4; 5; 2; 6; 1; 7; 8; 9]
                (pad_sequences (tokenized_sequences (sequences stream_plain))
                   11))
    by (vm_compute; tauto).
  assert (K : In 9 [2; 3; 1; 4; 5; 2; 6; 1; 7; 8; 9]) by (cbn; tauto).
  split; [exact I|].
  split; [exact (proj1 (ids_below_vocab_size (sequences stream_plain)
                          (lit "The food, the staff!") [] [] 3) I)|].
  split; [reflexivity|].
  split; [exact R|]. split; [exact K|].
  exact (proj2 (ids_below_vocab_size (sequences stream_plain) []
                  (pad_sequences (tokenized_sequences (sequences stream_plain))
                     11)
                  [2; 3; 1; 4; 5; 2; 6; 1; 7; 8; 9] 9) eq_refl R K).
Defined.

Lemma known_iff (sequences : list str) (w : str) :
  known sequences w = true <-> In w (all_words sequences).
Proof.
  unfold known. rewrite existsb_exists. split.
  - intros [x [Hx E]]. apply str_eqb_eq in E. now subst.
  - intro H. exists w. split; [exact H | now apply str_eqb_eq].
Qed.

(** X16: the tokenizer gives one id for each word of a text that is in
    the vocabulary and leaves the other words out without a trace: a text
    has as many ids as it has words of the vocabulary. *)
Theorem text_to_sequence_known_words (sequences : list str) (text : str) :
  length (text_to_sequence (word_index sequences) text)
  = length (filter (known sequences) (text_to_word_sequence text)).
Proof.
  unfold text_to_sequence.
  induction (text_to_word_sequence text) as [|w ws IH]; [reflexivity|].
  cbn [flat_map filter]. rewrite length_app, IH.
  destruct (known sequences w) eqn:E.
  - apply known_iff in E. destruct (word_index_total _ _ E) as [i ->].
    reflexivity.
  - assert (N : dict_get str_eqb (word_index sequences) w = None).
    { apply (dict_get_none _ str_eqb_eq). rewrite word_index_keys.
      rewrite sorted_voc_in, <- known_iff. congruence. }
    now rewrite N.
Qed.

(** ** Inputs and targets *)

Lemma pad_row_split (m : nat) (ids : list nat) :
  length ids <= m -> 1 <= m ->
  firstn (m - 1) (pad_row m ids) = pad_row (m - 1) (removelast ids) /\
  nth (m - 1) (pad_row m ids) 0 = last ids 0.
Proof.
  intros L M. rewrite (pad_row_fits m ids L).
  destruct ids as [|a ids'].
  - cbn [removelast last length]. rewrite app_nil_r, Nat.sub_0_r.
    rewrite (pad_row_fits (m - 1) []) by (cbn; lia).
    cbn [length]. rewrite app_nil_r, Nat.sub_0_r. split.
    + replace m with ((m - 1) + 1) at 2 by lia.
      rewrite repeat_app, firstn_app, repeat_length, Nat.sub_diag.
      rewrite firstn_all2 by (rewrite repeat_length; lia).
      cbn. now rewrite app_nil_r.
    + apply nth_repeat.
  - destruct (@exists_last _ (a :: ids')) as [front [x E]]; [discriminate|].
    rewrite E in *. rewrite removelast_last, last_last.
    rewrite length_app in L. cbn [length] in L.
    rewrite (pad_row_fits (m - 1) front) by lia.
    rewrite length_app. cbn [length].
    replace (m - (length front + 1)) with (m - 1 - length front) by lia.
    set (z := repeat 0 (m - 1 - length front)).
    assert (Z : length (z ++ front) = m - 1)
      by (unfold z; rewrite length_app, repeat_length; lia).
    rewrite app_assoc. split.
    + rewrite firstn_app, Z, Nat.sub_diag. cbn [firstn].
      rewrite app_nil_r. apply firstn_all2. lia.
    + rewrite app_nth2 by lia. now rewrite Z, Nat.sub_diag.
Qed.

Lemma tokenized_fit (sequences : list str) (m : nat) (ids : list nat) :
  max_sequence_len sequences = Some m ->
  In ids (tokenized_sequences sequences) -> length ids <= m.
Proof.
  unfold max_sequence_len. intros H Hi.
  apply max_of_spec in H as [H _]. apply H. now apply in_map.
Qed.

Lemma last_id_below (sequences : list str) (ids : list nat) :
  In ids (tokenized_sequences sequences) ->
  last ids 0 < vocab_size sequences.
Proof.
  intro H. destruct ids as [|a ids'].
  - unfold vocab_size. cbn. lia.
  - assert (I : In (last (a :: ids') 0) (a :: ids')).
    { destruct (@exists_last _ (a :: ids')) as [f [x E]]; [discriminate|].
      rewrite E, last_last. apply in_or_app. right. now left. }
    unfold tokenized_sequences, texts_to_sequences in H.
    apply in_map_iff in H as [t [E _]]. rewrite <- E in I. rewrite <- E.
    apply text_to_sequence_ids in I as [w [_ I]].
    apply word_index_id_range in I. unfold vocab_size. lia.
Qed.

Lemma to_categorical_classes (y : list nat) (n : nat) :
  0 < n -> (forall k, In k y -> k < n) ->
  to_categorical y n = Some (map (one_hot n) y).
Proof.
  intros N H. unfold to_categorical. destruct n as [|n]; [lia|].
  assert (F : forallb (fun k => k <? S n) y = true).
  { apply forallb_forall. intros k Hk. apply Nat.ltb_lt. now apply H. }
  now rewrite F.
Qed.

(** Cell 12, case by case on the greatest length of cell 9. *)
Lemma X_y_cases (sequences : list str) :
  X_y sequences
  = match max_sequence_len sequences with
    | Some (S k) =>
        Some (map (fun ids => pad_row k (removelast ids))
                  (tokenized_sequences sequences),
              map (fun ids => one_hot (vocab_size sequences) (last ids 0))
                  (tokenized_sequences sequences),
              k)
    | _ => None
    end.
Proof.
  unfold X_y.
  destruct (max_sequence_len sequences) as [[|k]|] eqn:H; try reflexivity.
  cbn [last_column].
  unfold pad_sequences, all_but_last_column. rewrite !map_map.
  assert (EX : map (fun x => firstn (S k - 1) (pad_row (S k) x))
                   (tokenized_sequences sequences)
               = map (fun ids => pad_row k (removelast ids))
                     (tokenized_sequences sequences)).
  { apply map_ext_in. intros ids Hi.
    destruct (pad_row_split (S k) ids (tokenized_fit _ _ _ H Hi)) as [A _];
      [lia|].
    rewrite A. now rewrite Nat.sub_succ, Nat.sub_0_r. }
  assert (EY : map (fun x => nth k (pad_row (S k) x) 0)
                   (tokenized_sequences sequences)
               = map (fun ids => last ids 0) (tokenized_sequences sequences)).
  { apply map_ext_in. intros ids Hi.
    destruct (pad_row_split (S k) ids (tokenized_fit _ _ _ H Hi)) as [_ B];
      [lia|].
    rewrite <- B. now rewrite Nat.sub_succ, Nat.sub_0_r. }
  rewrite EX, EY.
  rewrite to_categorical_classes, map_map.
  - now rewrite Nat.sub_succ, Nat.sub_0_r.
  - unfold vocab_size. lia.
  - intros j Hj. apply in_map_iff in Hj as [ids [<- Hi]].
    now apply last_id_below.
Qed.

(** X17: where some sequence holds a word, cell 12 raises nothing; [X]
    holds every encoded sequence without its last id, padded with zeros to
    one place less than the rows, [y] holds for every sequence the one-hot
    vector of its last id (of 0 for a sequence without words), and
    [seq_length] is one less than the length of the rows. *)
Theorem X_y_inputs_and_targets (sequences : list str) (m : nat) :
  max_sequence_len sequences = Some m -> 1 <= m ->
  X_y sequences
  = Some (map (fun ids => pad_row (m - 1) (removelast ids))
              (tokenized_sequences sequences),
          map (fun ids => one_hot (vocab_size sequences) (last ids 0))
              (tokenized_sequences sequences),
          m - 1).
Proof.
  intros H M. rewrite X_y_cases, H.
  destruct m as [|k]; [lia|].
  now rewrite Nat.sub_succ, Nat.sub_0_r.
Qed.

Lemma X_y_inputs_and_targets_witness :
  max_sequence_len (sequences stream_marker_in_the_middle) = Some 5 /\
  X_y (sequences stream_marker_in_the_middle)
  = Some ([[1; 2; 3; 4]], [[0; 0; 0; 0; 0; 1]], 4).
Proof.
  split; [reflexivity|].
  exact (X_y_inputs_and_targets (sequences stream_marker_in_the_middle) 5
           eq_refl ltac:(lia)).
Defined.

(** X18: cell 12 raises in one case only: no sequence holds a word that
    the tokenizer reads (which is so when there is no sequence). *)
Theorem X_y_raises_exactly (sequences : list str) :
  X_y sequences = None <->
  forall ids, In ids (tokenized_sequences sequences) -> ids = [].
Proof.
  rewrite X_y_cases. split.
  - intros H ids Hi.
    destruct (max_sequence_len sequences) as [[|k]|] eqn:E.
    + apply (tokenized_fit _ _ _ E) in Hi.
      destruct ids; [reflexivity | cbn in Hi; lia].
    + discriminate H.
    + unfold max_sequence_len in E.
      destruct (tokenized_sequences sequences); [destruct Hi | discriminate E].
  - intro H.
    destruct (max_sequence_len sequences) as [[|k]|] eqn:E; try reflexivity.
    unfold max_sequence_len in E. apply max_of_spec in E as [_ E].
    apply in_map_iff in E as [ids [E Hi]].
    rewrite (H ids Hi) in E. discriminate E.
Qed.

Lemma X_y_raises_exactly_witness :
  (forall ids, In ids (tokenized_sequences [lit "<"; lit "> !"]) -> ids = []) /\
  X_y [lit "<"; lit "> !"] = None.
Proof.
  assert (H : forall ids,
            In ids (tokenized_sequences [lit "<"; lit "> !"]) -> ids = []).
  { intros ids H. vm_compute in H.
    destruct H as [<- | [<- | []]]; reflexivity. }
  split; [exact H|].
  exact (proj2 (X_y_raises_exactly [lit "<"; lit "> !"]) H).
Defined.

Lemma list_sum_cons (x : nat) (l : list nat) :
  list_sum (x :: l) = x + list_sum l.
Proof. reflexivity. Qed.

Lemma one_hot_sum (k n : nat) :
  forall a,
    list_sum (map (fun j => if j =? k then 1 else 0) (seq a n))
    = if (a <=? k) && (k <? a + n) then 1 else 0.
Proof.
  induction n as [|n IH]; intro a; cbn [seq map].
  - destruct (a <=? k) eqn:A; [|reflexivity].
    destruct (k <? a + 0) eqn:B; [|reflexivity].
    apply Nat.leb_le in A. apply Nat.ltb_lt in B. lia.
  - rewrite list_sum_cons, IH.
    destruct (Nat.eqb_spec a k) as [-> | N].
    + replace (S k <=? k) with false by (symmetry; apply Nat.leb_gt; lia).
      rewrite Nat.leb_refl.
      replace (k <? k + S n) with true by (symmetry; apply Nat.ltb_lt; lia).
      reflexivity.
    + replace (k <? S a + n) with (k <? a + S n) by (f_equal; lia).
      destruct (k <? a + S n); [|now rewrite !andb_false_r].
      rewrite !andb_true_r.
      destruct (a <=? k) eqn:A, (S a <=? k) eqn:B; try reflexivity.
      * apply Nat.leb_le in A. apply Nat.leb_gt in B. lia.
      * apply Nat.leb_gt in A. apply Nat.leb_le in B. lia.
Qed.

(** X19: what cell 12 returns has the right shape: every row of [X] has
    [seq_length] entries, and every row of [y] has one entry for each class
    of the vocabulary size, all of them 0 but a single 1. *)
Theorem X_y_shapes
  (sequences : list str) (X y : list (list nat)) (seq_length : nat) :
  X_y sequences = Some (X, y, seq_length) ->
  length X = length sequences /\ length y = length sequences /\
  (forall x, In x X -> length x = seq_length) /\
  (forall v, In v y ->
     length v = vocab_size sequences /\ list_sum v = 1 /\
     forall j, In j v -> j = 0 \/ j = 1).
Proof.
  intro H. rewrite X_y_cases in H.
  destruct (max_sequence_len sequences) as [[|k]|] eqn:E;
    try discriminate H.
  injection H as <- <- <-.
  unfold tokenized_sequences, texts_to_sequences.
  rewrite !length_map. repeat split.
  - intros x Hx. apply in_map_iff in Hx as [ids [<- _]].
    apply pad_row_length.
  - apply in_map_iff in H as [ids [<- _]]. unfold one_hot.
    now rewrite length_map, length_seq.
  - apply in_map_iff in H as [ids [<- Hi]]. unfold one_hot.
    rewrite one_hot_sum. cbn [Nat.leb andb plus].
    assert (L : last ids 0 < vocab_size sequences)
      by (apply last_id_below; exact Hi).
    apply Nat.ltb_lt in L. now rewrite L.
  - intros j Hj. apply in_map_iff in H as [ids [<- _]].
    unfold one_hot in Hj. apply in_map_iff in Hj as [i [<- _]].
    destruct (i =? last ids 0); auto.
Qed.

Lemma X_y_shapes_witness :
  X_y (sequences stream_marker_in_the_middle)
  = Some ([[1; 2; 3; 4]], [[0; 0; 0; 0; 0; 1]], 4) /\
  length [[1; 2; 3; 4]] = length (sequences stream_marker_in_the_middle) /\
  length [[0; 0; 0; 0; 0; 1]]
  = length (sequences stream_marker_in_the_middle) /\
  (forall x, In x [[1; 2; 3; 4]] -> length x = 4) /\
  (forall v, In v [[0; 0; 0; 0; 0; 1]] ->
     length v = vocab_size (sequences stream_marker_in_the_middle) /\
     list_sum v = 1 /\ forall j, In j v -> j = 0 \/ j = 1).
Proof.
  split; [reflexivity|].
  apply (X_y_shapes (sequences stream_marker_in_the_middle)).
  reflexivity.
Defined.

(** ** The words of a text *)

Lemma no_space_chars (a : str) :
  contains space a = false ->
  forall c, In c a -> Ascii.eqb space_char c = false.
Proof.
  induction a as [|x a IH]; intros H c Hc; [destruct Hc|].
  rewrite contains_cons, startswith_space in H.
  apply orb_false_iff in H as [Hx Ha].
  destruct Hc as [<- | Hc]; [exact Hx | now apply IH].
Qed.

Lemma split_space_app_bound (n : nat) :
  forall a b, length a <= n ->
    split space (a ++ space ++ b) = split space a ++ split space b.
Proof.
  induction n as [|n IH]; intros a b L.
  - destruct a; [reflexivity | cbn in L; lia].
  - destruct (contains space a) eqn:C.
    + destruct (first_cut space a ltac:(discriminate) C) as [a1 [r [-> C1]]].
      assert (F : forall back,
                 find space (a1 ++ space ++ back) = Some (length a1))
        by (intro back; apply find_space_first; now apply no_space_chars).
      rewrite <- !app_assoc.
      rewrite (split_at_first space ltac:(discriminate) a1 _ (F _)).
      rewrite (split_at_first space ltac:(discriminate) a1 _ (F _)).
      cbn [app]. f_equal. apply IH.
      rewrite !length_app in L. cbn [length space lit] in L.
      cbn in L. lia.
    + rewrite (split_without _ _ C). cbn [app].
      apply split_at_first; [discriminate|].
      apply find_space_first. now apply no_space_chars.
Qed.

Lemma split_space_app (a b : str) :
  split space (a ++ space ++ b) = split space a ++ split space b.
Proof. apply (split_space_app_bound (length a)). lia. Qed.

Lemma filter_char_lower (c : ascii) :
  is_filter c = true -> lower_char c = c.
Proof.
  destruct c as [[] [] [] [] [] [] [] []]; vm_compute; intro H;
    first [reflexivity | discriminate H].
Qed.

Lemma text_to_word_sequence_filtered (text : str) :
  text_to_word_sequence text
  = filter (fun i => negb (is_empty i)) (split space (filtered text)).
Proof. reflexivity. Qed.

Lemma filtered_separated (a b : str) (c : ascii) :
  is_filter c = true \/ c = space_char ->
  filtered (a ++ c :: b) = filtered a ++ space ++ filtered b.
Proof.
  intro H. unfold filtered, lower.
  rewrite map_app, flat_map_app. f_equal.
  cbn [map flat_map]. f_equal.
  destruct H as [H | ->]; [|reflexivity].
  now rewrite (filter_char_lower c H), H.
Qed.

Lemma words_after_space (a b : str) :
  text_to_word_sequence (a ++ space ++ b)
  = text_to_word_sequence a ++ text_to_word_sequence b.
Proof.
  rewrite !text_to_word_sequence_filtered.
  change (a ++ space ++ b) with (a ++ space_char :: b).
  rewrite (filtered_separated a b space_char) by now right.
  now rewrite split_space_app, filter_app.
Qed.

(** X20: for texts of code points below 256, the words that the
    tokenizer reads in two texts with a space or one of its filter
    characters between them are the words of the first followed by the
    words of the second. *)
Theorem text_to_word_sequence_separated
  (cps_a cps_b : list N) (cp : N) (a b : str) (c : ascii) :
  of_code_points cps_a = Some a ->
  of_code_points cps_b = Some b ->
  of_code_points [cp] = Some [c] ->
  is_filter c = true \/ c = space_char ->
  text_to_word_sequence (a ++ c :: b)
  = text_to_word_sequence a ++ text_to_word_sequence b.
Proof.
  intros _ _ _ H. rewrite !text_to_word_sequence_filtered.
  now rewrite (filtered_separated a b c H), split_space_app, filter_app.
Qed.

Lemma text_to_word_sequence_separated_witness :
  of_code_points (code_points_of (lit "Great food")) = Some (lit "Great food") /\
  of_code_points (code_points_of (lit "loved it")) = Some (lit "loved it") /\
  of_code_points [44%N] = Some [ascii_of_nat 44] /\
  (is_filter (ascii_of_nat 44) = true \/ ascii_of_nat 44 = space_char) /\
  text_to_word_sequence (lit "Great food" ++ ascii_of_nat 44 :: lit "loved it")
  = text_to_word_sequence (lit "Great food")
    ++ text_to_word_sequence (lit "loved it").
Proof.
  split; [reflexivity|]. split; [reflexivity|]. split; [reflexivity|].
  split; [left; reflexivity|].
  apply (text_to_word_sequence_separated
           (code_points_of (lit "Great food"))
           (code_points_of (lit "loved it")) 44%N
           (lit "Great food") (lit "loved it") (ascii_of_nat 44));
    [reflexivity | reflexivity | reflexivity | left; reflexivity].
Defined.

Lemma in_firstn {A : Type} (n : nat) (l : list A) (x : A) :
  In x (firstn n l) -> In x l.
Proof.
  intro H. rewrite <- (firstn_skipn n l). apply in_or_app. now left.
Qed.

Lemma in_skipn {A : Type} (n : nat) (l : list A) (x : A) :
  In x (skipn n l) -> In x l.
Proof.
  intro H. rewrite <- (firstn_skipn n l). apply in_or_app. now right.
Qed.

(** No occurrence in front of the first one. *)
Lemma find_first_clear (p s : str) (i : nat) :
  p <> [] -> find p s = Some i -> contains p (firstn i s) = false.
Proof.
  intro Hp. revert i. induction s as [|c s IH]; intro i; cbn [find].
  - destruct (startswith [] p); [|discriminate]. intros [= <-].
    destruct p; [contradiction | reflexivity].
  - destruct (startswith (c :: s) p) eqn:E.
    + intros [= <-]. destruct p; [contradiction | reflexivity].
    + destruct (find p s) as [j|] eqn:F; [|discriminate].
      intros [= <-]. cbn [firstn].
      rewrite contains_cons, (IH j eq_refl), orb_false_r.
      apply startswith_false_iff. intros r E'.
      apply startswith_false_iff with (r := r ++ skipn j s) in E.
      apply E. rewrite <- (firstn_skipn j s) at 1.
      change (c :: firstn j s ++ skipn j s)
        with ((c :: firstn j s) ++ skipn j s).
      rewrite E'. now rewrite <- app_assoc.
Qed.

Lemma split_loop_parts (sep : str) (n : nat) :
  sep <> [] ->
  forall s w, length s <= n -> In w (split_loop n sep s) ->
    contains sep w = false /\ forall c, In c w -> In c s.
Proof.
  intro Hs. induction n as [|n IH]; intros s w L H; cbn [split_loop] in H.
  - destruct H as [<- | []]. destruct s; [|cbn in L; lia].
    split; [|auto]. destruct sep; [contradiction | reflexivity].
  - destruct (find sep s) as [i|] eqn:F.
    + destruct H as [<- | H].
      * split; [now apply find_first_clear|]. intros c. apply in_firstn.
      * apply find_bound in F.
        assert (0 < length sep) by (destruct sep; [contradiction | cbn; lia]).
        assert (L' : length (skipn (i + length sep) s) <= n)
          by (rewrite length_skipn; lia).
        destruct (IH _ w L' H) as [A B].
        split; [exact A|]. intros c Hc. exact (in_skipn _ _ _ (B c Hc)).
    + destruct H as [<- | []]. split; [now apply find_none_iff | auto].
Qed.

Lemma in_filtered (text : str) (c : ascii) :
  In c (filtered text) ->
  c = space_char \/ (is_filter c = false /\ lower_char c = c).
Proof.
  unfold filtered. rewrite in_flat_map. intros [x [Hx Hc]].
  unfold lower in Hx. apply in_map_iff in Hx as [x0 [<- _]].
  destruct (is_filter (lower_char x0)) eqn:E.
  - left. destruct Hc as [<- | []]. reflexivity.
  - right. destruct Hc as [<- | []]. split; [exact E|].
    apply lower_char_idem.
Qed.

(** What a word is that the tokenizer reads in a text. *)
Lemma word_shape (text w : str) :
  In w (text_to_word_sequence text) ->
  w <> [] /\
  forall c, In c w ->
    Ascii.eqb space_char c = false /\ is_filter c = false /\
    lower_char c = c.
Proof.
  rewrite text_to_word_sequence_filtered. intro H.
  apply filter_In in H as [H N]. split.
  - intros ->. discriminate N.
  - destruct (split_loop_parts space _ ltac:(discriminate) _ w (le_n _) H)
      as [A B].
    intros c Hc. pose proof (no_space_chars w A c Hc) as S0.
    destruct (in_filtered text c (B c Hc)) as [-> | [F L]];
      [discriminate S0 | now repeat split].
Qed.

Lemma word_read_as_itself (sequences : list str) (w : str) :
  In w (all_words sequences) -> text_to_word_sequence w = [w].
Proof.
  intro H. unfold all_words in H. apply in_flat_map in H as [text [_ H]].
  destruct (word_shape text w H) as [N C].
  rewrite text_to_word_sequence_filtered.
  assert (F : filtered w = w).
  { unfold filtered.
    assert (L : lower w = w).
    { unfold lower. rewrite <- (map_id w) at 2. apply map_ext_in.
      intros c Hc. now apply C. }
    rewrite L. apply no_filter_no_change. intros c Hc. now apply C. }
  rewrite F, split_without.
  - cbn [filter]. destruct w; [contradiction | reflexivity].
  - apply contains_space_false. intros c Hc. now apply C.
Qed.

(** X21: a word that the tokenizer has read is read as itself: the
    tokenizer finds in it this one word, so that every word of the
    vocabulary can be given back to the tokenizer and keeps its id. *)
Theorem vocabulary_word_read_as_itself (sequences : list str) (w : str) :
  In w (all_words sequences) ->
  text_to_word_sequence w = [w] /\
  exists i, text_to_sequence (word_index sequences) w = [i] /\
            dict_get Nat.eqb (index_word_lookup sequences) i = Some w.
Proof.
  intro H. pose proof (word_read_as_itself sequences w H) as E.
  split; [exact E|].
  destruct (word_index_total sequences w H) as [i Hi].
  exists i. unfold text_to_sequence. rewrite E. cbn [flat_map].
  rewrite Hi. split; [reflexivity|].
  now apply index_word_lookup_inverts.
Qed.

Lemma vocabulary_word_read_as_itself_witness :
  In (lit "food") (all_words (sequences stream_plain)) /\
  text_to_word_sequence (lit "food") = [lit "food"] /\
  exists i,
    text_to_sequence (word_index (sequences stream_plain)) (lit "food") = [i] /\
    dict_get Nat.eqb (index_word_lookup (sequences stream_plain)) i
    = Some (lit "food").
Proof.
  split; [vm_compute; tauto|].
  apply (vocabulary_word_read_as_itself (sequences stream_plain) (lit "food")).
  vm_compute. tauto.
Defined.

(** ** [generate_text] *)

Lemma lookup_word_known (sequences : list str) (i : nat) (w : str) :
  dict_get Nat.eqb (index_word_lookup sequences) i = Some w ->
  In w (all_words sequences) /\ 1 <= i <= length (word_index sequences).
Proof.
  intro H. apply index_word_lookup_inverts in H. split.
  - apply sorted_voc_in. rewrite <- word_index_keys.
    apply (dict_get_in _ str_eqb_eq) in H.
    change w with (fst (w, i)). now apply in_map.
  - now apply word_index_id_range in H.
Qed.

Lemma lookup_total (sequences : list str) (i : nat) :
  1 <= i <= length (word_index sequences) ->
  exists w, dict_get Nat.eqb (index_word_lookup sequences) i = Some w.
Proof.
  intro H.
  assert (I : In i (map snd (word_index sequences)))
    by (rewrite word_index_values; apply in_seq; lia).
  apply in_map_iff in I as [[w j] [E I]]. cbn [snd] in E. subst j.
  exists w. apply index_word_lookup_inverts.
  apply (in_dict_get _ str_eqb_eq); [|exact I].
  rewrite word_index_keys. apply sorted_voc_nodup.
Qed.

Lemma pad_seed_long (max_sequence_len : nat) (ids : list nat) :
  2 <= max_sequence_len ->
  pad_seed max_sequence_len ids = Some (pad_row (max_sequence_len - 1) ids).
Proof.
  intro H. destruct max_sequence_len as [|[|k]]; [lia | lia |].
  cbn [pad_seed]. now rewrite Nat.sub_succ, Nat.sub_0_r.
Qed.

(** X22: where [generate_text] returns, it returns the seed text followed
    by as many words of the vocabulary as were asked for, each behind one
    space; and the tokenizer reads in the returned text the words of the
    seed text followed by these words. *)
Theorem generate_text_appends_words
  (predict_classes : list nat -> nat) (sequences : list str)
  (max_sequence_len next_words : nat) :
  forall seed_text out,
    generate_text predict_classes sequences seed_text next_words
      max_sequence_len = Some out ->
    exists ws,
      length ws = next_words /\
      (forall w, In w ws -> In w (all_words sequences)) /\
      out = seed_text ++ concat (map (fun w => space ++ w) ws) /\
      text_to_word_sequence out = text_to_word_sequence seed_text ++ ws.
Proof.
  induction next_words as [|n IH]; intros seed out H; cbn [generate_text] in H.
  - injection H as <-. exists []. cbn. now rewrite !app_nil_r.
  - destruct (pad_seed max_sequence_len
                (text_to_sequence (word_index sequences) seed))
      as [row|]; [|discriminate H].
    destruct (dict_get Nat.eqb (index_word_lookup sequences)
                (predict_classes row)) as [word|] eqn:D; [|discriminate H].
    destruct (lookup_word_known _ _ _ D) as [K _].
    destruct (IH _ _ H) as [ws [L [A [E T]]]].
    exists (word :: ws). repeat split.
    + cbn. now rewrite L.
    + intros w [<- | Hw]; [exact K | now apply A].
    + rewrite E. cbn [map concat]. now rewrite <- !app_assoc.
    + rewrite T, words_after_space.
      rewrite (word_read_as_itself sequences word K).
      now rewrite <- app_assoc.
Qed.

Lemma generate_text_appends_words_witness :
  generate_text (fun _ => 1) (sequences stream_plain) (lit "The food") 2 11
  = Some (lit "The food was was") /\
  exists ws,
    length ws = 2 /\
    (forall w, In w ws -> In w (all_words (sequences stream_plain))) /\
    lit "The food was was"
    = lit "The food" ++ concat (map (fun w => space ++ w) ws) /\
    text_to_word_sequence (lit "The food was was")
    = text_to_word_sequence (lit "The food") ++ ws.
Proof.
  split; [reflexivity|].
  apply (generate_text_appends_words (fun _ => 1) (sequences stream_plain)
           11 2 (lit "The food")).
  reflexivity.
Defined.

(** X23: with room for at least one id in the row ([max_sequence_len] at
    least 2) and a network that only predicts ids of words, [generate_text]
    raises nothing, whatever the seed text, known words or not, and however
    many words are asked for. *)
Theorem generate_text_returns
  (predict_classes : list nat -> nat) (sequences : list str)
  (max_sequence_len next_words : nat) :
  2 <= max_sequence_len ->
  (forall row, 1 <= predict_classes row <= length (word_index sequences)) ->
  forall seed_text,
    exists out,
      generate_text predict_classes sequences seed_text next_words
        max_sequence_len = Some out.
Proof.
  intros M P. induction next_words as [|n IH]; intro seed;
    cbn [generate_text].
  - now exists seed.
  - rewrite (pad_seed_long _ _ M).
    destruct (lookup_total sequences _ (P (pad_row (max_sequence_len - 1)
                (text_to_sequence (word_index sequences) seed))))
      as [word ->].
    apply IH.
Qed.

Lemma generate_text_returns_witness :
  2 <= 11 /\
  (forall row : list nat,
     1 <= (fun _ : list nat => 1) row
     <= length (word_index (sequences stream_plain))) /\
  exists out,
    generate_text (fun _ => 1) (sequences stream_plain) (lit "I think that I")
      5 11 = Some out.
Proof.
  assert (P : forall row : list nat,
            1 <= (fun _ : list nat => 1) row
            <= length (word_index (sequences stream_plain)))
    by (intro row; vm_compute; lia).
  split; [lia|]. split; [exact P|].
  apply (generate_text_returns (fun _ => 1) (sequences stream_plain) 11 5
           ltac:(lia) P).
Defined.

(** X24: the network has a class for the padding id 0, which is the id of
    no word: where it predicts 0, or any class that is no id, for the row
    made of the seed text, [generate_text] raises (the KeyError of the
    lookup), however many words are asked for. *)
Theorem generate_text_raises_on_padding_class
  (predict_classes : list nat -> nat) (sequences : list str)
  (seed_text : str) (max_sequence_len n : nat) :
  2 <= max_sequence_len ->
  (let row := pad_row (max_sequence_len - 1)
                (text_to_sequence (word_index sequences) seed_text) in
   predict_classes row = 0 \/
   length (word_index sequences) < predict_classes row) ->
  generate_text predict_classes sequences seed_text (S n) max_sequence_len
  = None.
Proof.
  intros M P. cbn [generate_text]. rewrite (pad_seed_long _ _ M).
  cbn zeta in P.
  destruct (dict_get Nat.eqb (index_word_lookup sequences)
              (predict_classes
                 (pad_row (max_sequence_len - 1)
                    (text_to_sequence (word_index sequences) seed_text))))
    as [word|] eqn:D; [|reflexivity].
  apply lookup_word_known in D as [_ D]. lia.
Qed.

Lemma generate_text_raises_on_padding_class_witness :
  2 <= 11 /\
  generate_text (fun _ => 0) (sequences stream_plain) (lit "I think that I")
    5 11 = None.
Proof.
  split; [lia|].
  apply (generate_text_raises_on_padding_class (fun _ => 0)
           (sequences stream_plain) (lit "I think that I") 11 4);
    [lia | left; reflexivity].
Defined.

(** X25: the row that [generate_text] gives to the network for a seed
    text has [max_sequence_len - 1] entries, all of them classes below the
    vocabulary size: the ids of the last words of the seed text that are in
    the vocabulary, behind zeros. *)
Theorem generate_text_row
  (sequences : list str) (seed_text : str) (max_sequence_len : nat) :
  2 <= max_sequence_len ->
  exists row,
    pad_seed max_sequence_len
      (text_to_sequence (word_index sequences) seed_text) = Some row /\
    length row = max_sequence_len - 1 /\
    (forall k, In k row -> k < vocab_size sequences) /\
    exists zeros kept front,
      row = zeros ++ kept /\
      (forall z, In z zeros -> z = 0) /\
      text_to_sequence (word_index sequences) seed_text = front ++ kept /\
      length kept
      = Nat.min (max_sequence_len - 1)
          (length (text_to_sequence (word_index sequences) seed_text)).
Proof.
  intro M. rewrite (pad_seed_long _ _ M).
  set (ids := text_to_sequence (word_index sequences) seed_text).
  exists (pad_row (max_sequence_len - 1) ids).
  split; [reflexivity|]. split; [apply pad_row_length|]. split.
  - intros k Hk. apply in_pad_row in Hk as [-> | Hk].
    + unfold vocab_size. lia.
    + apply text_to_sequence_ids in Hk as [w [_ Hk]].
      apply word_index_id_range in Hk. unfold vocab_size. lia.
  - unfold pad_row.
    exists (repeat 0 (max_sequence_len - 1
                      - length (skipn (length ids - (max_sequence_len - 1))
                                  ids))),
      (skipn (length ids - (max_sequence_len - 1)) ids),
      (firstn (length ids - (max_sequence_len - 1)) ids).
    split; [reflexivity|]. split; [|split].
    + intros z Hz. now apply repeat_spec in Hz.
    + symmetry. apply firstn_skipn.
    + rewrite length_skipn. lia.
Qed.

Lemma generate_text_row_witness :
  2 <= 3 /\
  exists row,
    pad_seed 3
      (text_to_sequence (word_index (sequences stream_plain))
         (lit "The food was good")) = Some row /\
    length row = 3 - 1 /\
    (forall k, In k row -> k < vocab_size (sequences stream_plain)) /\
    exists zeros kept front,
      row = zeros ++ kept /\
      (forall z, In z zeros -> z = 0) /\
      text_to_sequence (word_index (sequences stream_plain))
        (lit "The food was good") = front ++ kept /\
      length kept
      = Nat.min (3 - 1)
          (length (text_to_sequence (word_index (sequences stream_plain))
                     (lit "The food was good"))).
Proof.
  split; [lia|].
  apply (generate_text_row (sequences stream_plain) (lit "The food was good")
           3).
  lia.
Defined.

